(** * printipi: the event primitive and the IODrivers container

    A shallow embedding of
    - [code/firmware/src/event.cpp]  (class [Event]), and
    - [src/iodrivers/iodrivers.h]    (class template [IODrivers<TupleT>]),
    followed by the properties proved about them.

    Conventions.
    - [std::size_t] is [N] with its wrap-around at [SIZE_MAX] written out.
    - A clock time point or duration is its tick count, an integer in [Z]
      (overflow of the signed tick counter is undefined behaviour in C++ and
      is not modelled).
    - Code that reads or changes the drivers stored in the tuple is a function
      of the tuple's contents; code that can hit [assert] returns an
      [Outcome]. *)

From Stdlib Require Import ZArith NArith List Bool Lia Sorted.
Import ListNotations.

Set Implicit Arguments.

(* ===================================================================== *)
(** ** event.cpp *)
(* ===================================================================== *)

Module Event.

(** [StepDirection], [AxisIdType], [NULL_STEPPER_ID] and [EventClockT] are
    declared in event.h, which is not among the sources.  The enum has the two
    values event.cpp names; the axis identifier is an unsigned number; the
    reserved identifier is a parameter of the model. *)
Inductive StepDirection : Type := StepForward | StepBackward.

Definition StepDirection_eqb (a b : StepDirection) : bool :=
  match a, b with
  | StepForward, StepForward | StepBackward, StepBackward => true
  | _, _ => false
  end.

Definition AxisIdType := N.
Definition time_point := Z.   (* EventClockT::time_point, in ticks *)
Definition duration := Z.     (* EventClockT::duration, in ticks *)

Class Header : Type := { NULL_STEPPER_ID : AxisIdType }.

(** The data members used by event.cpp. *)
Record Event : Type := mkEvent {
  _time : time_point;
  _stepperNum : AxisIdType;
  _isForward : bool
}.

(** [AxisIdType Event::stepperId() const] *)
Definition stepperId (this : Event) : AxisIdType := _stepperNum this.

(** [StepDirection Event::direction() const] *)
Definition direction (this : Event) : StepDirection :=
  if _isForward this then StepForward else StepBackward.

(** [EventClockT::time_point Event::time() const] *)
Definition time (this : Event) : time_point := _time this.

(** [bool Event::isNull() const] *)
Definition isNull `{Header} (this : Event) : bool :=
  (stepperId this =? NULL_STEPPER_ID)%N.

(** [Event::Event(EventClockT::time_point t, AxisIdType stepperNum,
    StepDirection dir)] *)
Definition Event_ctor (t : time_point) (stepperNum : AxisIdType)
    (dir : StepDirection) : Event :=
  {| _time := t;
     _stepperNum := stepperNum;
     _isForward := StepDirection_eqb dir StepForward |}.

(** [void Event::offset(const EventClockT::duration &offset)]:
    [this->_time += offset]; the updated object is returned. *)
Definition offset (this : Event) (off : duration) : Event :=
  {| _time := (_time this + off)%Z;
     _stepperNum := _stepperNum this;
     _isForward := _isForward this |}.

(** [bool Event::operator<(const Event &other) const] *)
Definition lt (this other : Event) : bool := (time this <? time other)%Z.

(** [bool Event::operator>(const Event &other) const] *)
Definition gt (this other : Event) : bool := (time this >? time other)%Z.

(** [EventClockT] is declared in event.h, which is not among the sources:
    the length of one tick of the clock is [tick_num / tick_den] seconds. *)
Class Clock : Type := { tick_num : positive; tick_den : positive }.

(** [std::chrono::duration_cast<EventClockT::duration>(std::chrono::nanoseconds(nsec))]
    for an unsigned count: the count times (1/10^9) / (tick_num/tick_den),
    truncated towards zero, as the standard library defines the cast. *)
Definition nanoseconds_to_duration `{Clock} (nsec : N) : duration :=
  ((Z.of_N nsec * Z.pos tick_den) / (1000000000 * Z.pos tick_num))%Z.

(** [void Event::offsetNano(unsigned nsec)] *)
Definition offsetNano `{Clock} (this : Event) (nsec : N) : Event :=
  offset this (nanoseconds_to_duration nsec).

End Event.

(* ===================================================================== *)
(** ** iodrivers.h *)
(* ===================================================================== *)

Module IODrivers.

Local Open Scope N_scope.

(** What a call can do besides returning: fail an [assert] (the process
    aborts), or exhaust the step budget the model gives its loops.  The latter
    is shown below never to happen. *)
Inductive Outcome (A : Type) : Type :=
| Returns (a : A)
| AssertionFailed
| OutOfFuel.
Arguments AssertionFailed {A}.
Arguments OutOfFuel {A}.

Definition bind {A B : Type} (c : Outcome A) (k : A -> Outcome B) : Outcome B :=
  match c with
  | Returns a => k a
  | AssertionFailed => AssertionFailed
  | OutOfFuel => OutOfFuel
  end.

Notation "x <- c ;; k" := (bind c (fun x => k))
  (at level 61, c at next level, right associativity).

(** Everything [IODrivers<TupleT>] is instantiated with.  iodrivers.h uses,
    but does not contain, [std::size_t], [OutputEvent], [OnIdleCpuIntervalT]
    and [tupleCallOnIndex]; they are the fields of this class.

    - [Drivers] is the contents of the member [drivers] (every driver's
      state); it is what the member functions of the drivers read and change.
    - [tupleCallOnIndex_F s i ...] is [tupleCallOnIndex(tuple(), GenericF(),
      i, ...)] evaluated when the tuple holds [s]; the [const] queries return
      a value, [onIdleCpu] also returns the new contents.  The functions are
      total: what [tupleCallOnIndex] yields for an index beyond the tuple is
      left open. *)
Class Instantiation : Type := {
  SIZE_MAX : N;
  Drivers : Type;
  tuple_size : N;                       (* std::tuple_size<TupleT>::value *)
  tuple_size_fits : tuple_size <= SIZE_MAX;

  OutputEvent : Type;
  OutputEvent_ctor : OutputEvent;       (* OutputEvent() *)
  isNull : OutputEvent -> bool;         (* OutputEvent::isNull() *)
  time : OutputEvent -> Z;              (* OutputEvent::time(), in ticks *)
  (** Modelled from the spec: the class OutputEvent is not among the sources;
      the spec calls the default-constructed event the null event. *)
  OutputEvent_ctor_isNull : isNull OutputEvent_ctor = true;

  OnIdleCpuIntervalT : Type;

  tupleCallOnIndex_IsFan : Drivers -> N -> bool;
  tupleCallOnIndex_IsHotend : Drivers -> N -> bool;
  tupleCallOnIndex_IsHeatedBed : Drivers -> N -> bool;
  tupleCallOnIndex_IsServo : Drivers -> N -> bool;
  tupleCallOnIndex_IsEndstop : Drivers -> N -> bool;
  tupleCallOnIndex_PeekNextEvent : Drivers -> N -> OutputEvent;
  tupleCallOnIndex_OnIdleCpu :
    Drivers -> N -> OnIdleCpuIntervalT -> bool * Drivers
}.

(** [class iteratorbase]: the index into the tuple.  Every cursor of one
    container holds the same [_tuple] pointer, which is left out. *)
Record iteratorbase : Type := { idx : N }.

Section Container.
Context `{I : Instantiation}.

(** [bool iteratorbase::isAtEnd() const] *)
Definition isAtEnd (this : iteratorbase) : bool := idx this =? tuple_size.

(** [friend bool operator==(const iteratorbase &a, const iteratorbase &b)] *)
Definition iteratorbase_eqb (a b : iteratorbase) : bool := idx a =? idx b.

(** [friend bool operator!=] *)
Definition iteratorbase_neqb (a b : iteratorbase) : bool :=
  negb (iteratorbase_eqb a b).

(** The capability queries of [iteratorbase] used below. *)
Definition isFan (this : iteratorbase) (s : Drivers) : bool :=
  tupleCallOnIndex_IsFan s (idx this).
Definition isHotend (this : iteratorbase) (s : Drivers) : bool :=
  tupleCallOnIndex_IsHotend s (idx this).
Definition isHeatedBed (this : iteratorbase) (s : Drivers) : bool :=
  tupleCallOnIndex_IsHeatedBed s (idx this).
Definition isServo (this : iteratorbase) (s : Drivers) : bool :=
  tupleCallOnIndex_IsServo s (idx this).
Definition isEndstop (this : iteratorbase) (s : Drivers) : bool :=
  tupleCallOnIndex_IsEndstop s (idx this).
Definition iteratorbase_peekNextEvent (this : iteratorbase) (s : Drivers)
    : OutputEvent :=
  tupleCallOnIndex_PeekNextEvent s (idx this).
Definition iteratorbase_onIdleCpu (this : iteratorbase)
    (interval : OnIdleCpuIntervalT) (s : Drivers) : bool * Drivers :=
  tupleCallOnIndex_OnIdleCpu s (idx this) interval.

(** A filter predicate is a stateless function object applied to the cursor;
    what it answers may depend on the driver the cursor points to. *)
Definition Predicate : Type := Drivers -> iteratorbase -> bool.

(** [struct NoPredicate] *)
Definition NoPredicate : Predicate := fun _ _ => true.

(** [struct Union<PredA, PredB>] *)
Definition Union (PredA PredB : Predicate) : Predicate :=
  fun s self => PredA s self || PredB s self.

(** [struct Intersection<PredA, PredB>] *)
Definition Intersection (PredA PredB : Predicate) : Predicate :=
  fun s self => PredA s self && PredB s self.

(** The adaptors [GenericIsFan] ... used as predicates: applied to a cursor
    they call the cursor's member function of the same name. *)
Definition GenericIsFan : Predicate := fun s self => isFan self s.
Definition GenericIsHotend : Predicate := fun s self => isHotend self s.
Definition GenericIsHeatedBed : Predicate := fun s self => isHeatedBed self s.
Definition GenericIsServo : Predicate := fun s self => isServo self s.
Definition GenericIsEndstop : Predicate := fun s self => isEndstop self s.

(** [GenericOnIdleCpu] applied to a cursor and an interval. *)
Definition GenericOnIdleCpu (d : iteratorbase) (interval : OnIdleCpuIntervalT)
    (s : Drivers) : bool * Drivers :=
  iteratorbase_onIdleCpu d interval s.

(** [++this->idx] on a [std::size_t]. *)
Definition size_incr (i : N) : N := if i =? SIZE_MAX then 0 else i + 1.

(** The body of [iterator::operator++]:
    [do { assert(!isAtEnd()); ++idx; } while (!pred && !isAtEnd());]
    where [pred] is the predicate applied to the cursor; one unfolding of the
    loop per unit of [fuel]. *)
Fixpoint incr_loop (fuel : nat) (P : Predicate) (s : Drivers)
    (this : iteratorbase) : Outcome iteratorbase :=
  match fuel with
  | O => OutOfFuel
  | S fuel' =>
      if isAtEnd this then AssertionFailed
      else
        let this' := {| idx := size_incr (idx this) |} in
        if negb (P s this') && negb (isAtEnd this')
        then incr_loop fuel' P s this'
        else Returns this'
  end.

(** Number of increments that take index [i] to [tuple_size], going round
    through [SIZE_MAX] when [i] is beyond the end. *)
Definition steps_to_end (i : N) : N :=
  if i <=? tuple_size then tuple_size - i
  else (SIZE_MAX - i) + 1 + tuple_size.

(** [void iterator<Predicate>::operator++()] *)
Definition operator_incr (P : Predicate) (s : Drivers) (this : iteratorbase)
    : Outcome iteratorbase :=
  incr_loop (S (N.to_nat (steps_to_end (idx this)))) P s this.

(** [iterator(TupleT &drivers, std::size_t idx=0, bool filterFirst=true)] *)
Definition iterator_ctor (P : Predicate) (i : N) (filterFirst : bool)
    (s : Drivers) : Outcome iteratorbase :=
  let this := {| idx := i |} in
  if filterFirst && negb (P s this) then operator_incr P s this
  else Returns this.

(** [enum ShortCircuitType] *)
Inductive ShortCircuitType : Type := NO_SHORT_CIRCUIT | DO_SHORT_CIRCUIT.

(** *** [class iterinfo<Predicate>]: a view is its predicate. *)

(** [iterator<Predicate> begin()] *)
Definition begin (P : Predicate) (s : Drivers) : Outcome iteratorbase :=
  iterator_ctor P 0 true s.

(** [iterator<Predicate> end()] *)
Definition end_ (P : Predicate) (s : Drivers) : Outcome iteratorbase :=
  iterator_ctor P tuple_size false s.

(** The range-based [for] over the view, from cursor [it] up to [e]:
    test [it != e], run the body on the cursor, increment. *)
Fixpoint range_for {Ret : Type} (fuel : nat) (P : Predicate)
    (body : Ret -> iteratorbase -> Drivers -> Ret * Drivers)
    (it e : iteratorbase) (reduced : Ret) (s : Drivers)
    : Outcome (Ret * Drivers) :=
  match fuel with
  | O => OutOfFuel
  | S fuel' =>
      if iteratorbase_neqb it e then
        let '(reduced', s') := body reduced it s in
        it' <- operator_incr P s' it ;;
        range_for fuel' P body it' e reduced' s'
      else Returns (reduced, s)
  end.

(** [Ret reduce(F &&f, Ret &&dflt, Args ...args)].  The callback receives
    the accumulator, the cursor and the extra arguments; what it does to the
    drivers (or to anything else it holds a reference to, which an instance
    can make a part of [Drivers]) is its second result. *)
Definition reduce {Ret Args : Type} (P : Predicate)
    (f : Ret -> iteratorbase -> Args -> Drivers -> Ret * Drivers)
    (dflt : Ret) (args : Args) (s : Drivers) : Outcome (Ret * Drivers) :=
  b <- begin P s ;;
  e <- end_ P s ;;
  range_for (S (N.to_nat tuple_size)) P
    (fun reduced d => f reduced d args) b e dflt s.

(** [bool empty()] *)
Definition empty (P : Predicate) (s : Drivers) : Outcome bool :=
  b <- begin P s ;;
  e <- end_ P s ;;
  Returns (iteratorbase_eqb b e).

(** [iterinfo<Union<Predicate, PredB> > unionWith(const iterinfo<PredB> &)] *)
Definition unionWith (P PredB : Predicate) : Predicate := Union P PredB.

(** [iterinfo<Intersection<Predicate, PredB> > filter(const iterinfo<PredB> &)] *)
Definition iterinfo_filter (P PredB : Predicate) : Predicate :=
  Intersection P PredB.

(** The lambda [any] hands to [reduce]:
    [(shortCircuit == DO_SHORT_CIRCUIT) ? (reduced || f(d, args...))
                                         : (f(d, args...) || reduced)]. *)
Definition any_lambda {Args : Type}
    (f : iteratorbase -> Args -> Drivers -> bool * Drivers)
    (shortCircuit : ShortCircuitType)
    (reduced : bool) (d : iteratorbase) (args : Args) (s : Drivers)
    : bool * Drivers :=
  match shortCircuit with
  | DO_SHORT_CIRCUIT => if reduced then (true, s) else f d args s
  | NO_SHORT_CIRCUIT => let '(r, s') := f d args s in (r || reduced, s')
  end.

(** [bool any(F &&f, ShortCircuitType shortCircuit, Args&& ...args)] *)
Definition any {Args : Type} (P : Predicate)
    (f : iteratorbase -> Args -> Drivers -> bool * Drivers)
    (shortCircuit : ShortCircuitType) (args : Args) (s : Drivers)
    : Outcome (bool * Drivers) :=
  reduce P (any_lambda f shortCircuit) false args s.

(** The lambda [all] hands to [reduce]:
    [(shortCircuit == DO_SHORT_CIRCUIT) ? (reduced && f(d, args...))
                                         : (f(d, args...) && reduced)]. *)
Definition all_lambda {Args : Type}
    (f : iteratorbase -> Args -> Drivers -> bool * Drivers)
    (shortCircuit : ShortCircuitType)
    (reduced : bool) (d : iteratorbase) (args : Args) (s : Drivers)
    : bool * Drivers :=
  match shortCircuit with
  | DO_SHORT_CIRCUIT => if reduced then f d args s else (false, s)
  | NO_SHORT_CIRCUIT => let '(r, s') := f d args s in (r && reduced, s')
  end.

(** [bool all(F &&f, ShortCircuitType shortCircuit, Args&& ...args)] *)
Definition all {Args : Type} (P : Predicate)
    (f : iteratorbase -> Args -> Drivers -> bool * Drivers)
    (shortCircuit : ShortCircuitType) (args : Args) (s : Drivers)
    : Outcome (bool * Drivers) :=
  reduce P (all_lambda f shortCircuit) true args s.

(** *** [class IODrivers] *)

(** [iterinfo<> iter()] *)
Definition iter : Predicate := NoPredicate.

(** [filter(const Predicate &p)] *)
Definition filter (p : Predicate) : Predicate := p.

Definition fans : Predicate := filter GenericIsFan.
Definition hotends : Predicate := filter GenericIsHotend.
Definition heatedBeds : Predicate := filter GenericIsHeatedBed.
Definition servos : Predicate := filter GenericIsServo.
Definition endstops : Predicate := filter GenericIsEndstop.

(** [heaters()]: [hotends().unionWith(heatedBeds())] *)
Definition heaters : Predicate := unionWith hotends heatedBeds.

(** [bool onIdleCpu(OnIdleCpuIntervalT interval)] *)
Definition onIdleCpu (interval : OnIdleCpuIntervalT) (s : Drivers)
    : Outcome (bool * Drivers) :=
  any iter GenericOnIdleCpu NO_SHORT_CIRCUIT interval s.

(** The lambda folded by [peekNextEvent]. *)
Definition peekNextEvent_step (reduced : iteratorbase * OutputEvent)
    (d : iteratorbase) (_ : unit) (s : Drivers)
    : (iteratorbase * OutputEvent) * Drivers :=
  let curEvt := iteratorbase_peekNextEvent d s in
  let isCurEvtSooner :=
    isNull (snd reduced)
    || (negb (isNull curEvt) && (time curEvt <? time (snd reduced))%Z) in
  (if isCurEvtSooner then (d, curEvt) else reduced, s).

(** [std::pair<iteratorbase, OutputEvent> peekNextEvent()] *)
Definition peekNextEvent (s : Drivers)
    : Outcome ((iteratorbase * OutputEvent) * Drivers) :=
  e <- end_ iter s ;;
  reduce iter peekNextEvent_step (e, OutputEvent_ctor) tt s.

End Container.

(** *** The rest of the container *)

(** [length()] folds with the literal [0], so that the accumulator of its
    [reduce] is an [int]; [INT_MAX] is the largest one. *)
Class IntT : Type := { INT_MAX : N }.

(** The calls through [tupleCallOnIndex] that change a driver and return
    nothing, with the types of their arguments ([float] for a duty cycle,
    [CelciusType] for a temperature: the values are only passed on). *)
Class Actuators (I : Instantiation) : Type := {
  float : Type;
  CelciusType : Type;
  tupleCallOnIndex_LockAxis : Drivers -> N -> Drivers;
  tupleCallOnIndex_UnlockAxis : Drivers -> N -> Drivers;
  tupleCallOnIndex_SetFanDutyCycle : Drivers -> N -> float -> Drivers;
  tupleCallOnIndex_SetTargetTemperature : Drivers -> N -> CelciusType -> Drivers
}.

Section Indexing.
Context `{I : Instantiation}.

(** [iterator operator+(std::size_t add)]:
    [iterator other = *this; while (add--) { ++other; } return other;] *)
Fixpoint plus_loop (add : nat) (P : Predicate) (s : Drivers)
    (other : iteratorbase) : Outcome iteratorbase :=
  match add with
  | O => Returns other
  | S add' => other' <- operator_incr P s other ;; plus_loop add' P s other'
  end.

Definition operator_plus (P : Predicate) (s : Drivers) (this : iteratorbase)
    (add : N) : Outcome iteratorbase :=
  plus_loop (N.to_nat add) P s this.

(** [iterator<Predicate> iterinfo::operator[](std::size_t idx)]:
    [begin() + idx] *)
Definition iterinfo_index (P : Predicate) (i : N) (s : Drivers)
    : Outcome iteratorbase :=
  b <- begin P s ;; operator_plus P s b i.

(** [iterator<> IODrivers::operator[](std::size_t idx)]: [iter()[idx]] *)
Definition IODrivers_index (i : N) (s : Drivers) : Outcome iteratorbase :=
  iterinfo_index iter i s.

(** [void apply(F &&f, Args ...args)]: the range-based [for] with the body
    [f(d, args...)]. *)
Definition apply {Args : Type} (P : Predicate)
    (f : iteratorbase -> Args -> Drivers -> Drivers)
    (args : Args) (s : Drivers) : Outcome Drivers :=
  b <- begin P s ;;
  e <- end_ P s ;;
  r <- range_for (S (N.to_nat tuple_size)) P
         (fun (_ : unit) d s' => (tt, f d args s')) b e tt s ;;
  Returns (snd r).

Section Length.
Context {IT : IntT}.

(** Conversion of an [int] to [std::size_t] (modulo [SIZE_MAX + 1]) and of a
    [std::size_t] to [int] (modulo [2 * (INT_MAX + 1)], into the range of
    [int]). *)
Definition size_of_int (z : Z) : N :=
  Z.to_N (z mod (Z.of_N SIZE_MAX + 1)).

Definition int_of_size (n : N) : Z :=
  let m := (Z.of_N n mod (2 * (Z.of_N INT_MAX + 1)))%Z in
  if (m <=? Z.of_N INT_MAX)%Z then m else (m - 2 * (Z.of_N INT_MAX + 1))%Z.

(** The lambda of [length()]: it takes [std::size_t numSeen] and returns
    [numSeen + 1]; [reduce] keeps the result in its [int] accumulator. *)
Definition length_lambda (reduced : Z) (_ : iteratorbase) (_ : unit)
    (s : Drivers) : Z * Drivers :=
  (int_of_size (size_incr (size_of_int reduced)), s).

(** [std::size_t length()]: [reduce(lambda, 0)], returned as [std::size_t]. *)
Definition length (P : Predicate) (s : Drivers) : Outcome (N * Drivers) :=
  r <- reduce P length_lambda 0%Z tt s ;;
  Returns (size_of_int (fst r), snd r).

End Length.

Section Conveniences.
Context {A : Actuators I}.

(** The member functions of [iteratorbase] that change the driver. *)
Definition lockAxis (this : iteratorbase) (s : Drivers) : Drivers :=
  tupleCallOnIndex_LockAxis s (idx this).
Definition unlockAxis (this : iteratorbase) (s : Drivers) : Drivers :=
  tupleCallOnIndex_UnlockAxis s (idx this).
Definition iteratorbase_setFanDutyCycle (this : iteratorbase) (duty : float)
    (s : Drivers) : Drivers :=
  tupleCallOnIndex_SetFanDutyCycle s (idx this) duty.
Definition setTargetTemperature (this : iteratorbase) (temp : CelciusType)
    (s : Drivers) : Drivers :=
  tupleCallOnIndex_SetTargetTemperature s (idx this) temp.

(** The adaptors handed to [apply], applied to a cursor. *)
Definition GenericLockAxis (d : iteratorbase) (_ : unit) (s : Drivers)
    : Drivers := lockAxis d s.
Definition GenericUnlockAxis (d : iteratorbase) (_ : unit) (s : Drivers)
    : Drivers := unlockAxis d s.
Definition GenericSetFanDutyCycle (d : iteratorbase) (duty : float)
    (s : Drivers) : Drivers := iteratorbase_setFanDutyCycle d duty s.
Definition GenericSetTargetTemperature (d : iteratorbase) (temp : CelciusType)
    (s : Drivers) : Drivers := setTargetTemperature d temp s.

(** [void lockAllAxes()] *)
Definition lockAllAxes (s : Drivers) : Outcome Drivers :=
  apply iter GenericLockAxis tt s.

(** [void unlockAllAxes()] *)
Definition unlockAllAxes (s : Drivers) : Outcome Drivers :=
  apply iter GenericUnlockAxis tt s.

(** [void setHotendTemp(CelciusType temp)] *)
Definition setHotendTemp (temp : CelciusType) (s : Drivers) : Outcome Drivers :=
  apply hotends GenericSetTargetTemperature temp s.

(** [void setBedTemp(CelciusType temp)] *)
Definition setBedTemp (temp : CelciusType) (s : Drivers) : Outcome Drivers :=
  apply heatedBeds GenericSetTargetTemperature temp s.

(** [void setFanDutyCycle(float duty)] *)
Definition setFanDutyCycle (duty : float) (s : Drivers) : Outcome Drivers :=
  apply fans GenericSetFanDutyCycle duty s.

End Conveniences.

End Indexing.

End IODrivers.

(* ===================================================================== *)
(** ** What the loops are compared with *)
(* ===================================================================== *)

Module Visit.
Import IODrivers.
Local Open Scope N_scope.

(** The indices [start], [start+1], ... ([n] of them). *)
Fixpoint iota (n : nat) (start : N) : list N :=
  match n with
  | O => []
  | S n' => start :: iota n' (start + 1)
  end.

Section Visit.
Context `{I : Instantiation}.

(** The slots of the tuple, in ascending order. *)
Definition slots : list N := iota (N.to_nat tuple_size) 0.

(** The predicate of a view as a test on slot indices. *)
Definition accepts (P : Predicate) (s : Drivers) (i : N) : bool :=
  P s {| idx := i |}.

(** The slots a view selects when the tuple holds [s]. *)
Definition matching (P : Predicate) (s : Drivers) : list N :=
  List.filter (accepts P s) slots.

(** The slots the view selects from index [j] on. *)
Definition matching_from (P : Predicate) (s : Drivers) (j : N) : list N :=
  List.filter (accepts P s) (iota (N.to_nat (tuple_size - j)) j).

(** The results of the calls, without the slots. *)
Definition results (run : list (N * bool) * Drivers) : list bool :=
  map snd (fst run).

(** The slots called, in the order of the calls. *)
Definition called (run : list (N * bool) * Drivers) : list N :=
  map fst (fst run).

(** Left fold of [body] over the listed slots, one call per slot, threading
    the contents of the tuple. *)
Fixpoint fold_cursors {Ret : Type}
    (body : Ret -> iteratorbase -> Drivers -> Ret * Drivers)
    (l : list N) (acc : Ret) (s : Drivers) : Ret * Drivers :=
  match l with
  | [] => (acc, s)
  | i :: l' =>
      let '(acc', s') := body acc {| idx := i |} s in
      fold_cursors body l' acc' s'
  end.

(** [f] called once on each listed slot, in order: the results, slot by slot,
    and the final contents of the tuple. *)
Fixpoint probe_each (f : iteratorbase -> Drivers -> bool * Drivers)
    (l : list N) (s : Drivers) : list (N * bool) * Drivers :=
  match l with
  | [] => ([], s)
  | i :: l' =>
      let '(r, s') := f {| idx := i |} s in
      let '(rs, s'') := probe_each f l' s' in
      ((i, r) :: rs, s'')
  end.

(** [f] called on the listed slots in order, up to and including the first
    call that returns [stop]; the slots after it are not called. *)
Fixpoint probe_until (stop : bool)
    (f : iteratorbase -> Drivers -> bool * Drivers)
    (l : list N) (s : Drivers) : list (N * bool) * Drivers :=
  match l with
  | [] => ([], s)
  | i :: l' =>
      let '(r, s') := f {| idx := i |} s in
      if Bool.eqb r stop then ([(i, r)], s')
      else
        let '(rs, s'') := probe_until stop f l' s' in
        ((i, r) :: rs, s'')
  end.

(** A body leaves the answers of a predicate as they are. *)
Definition preserves {Ret : Type} (P : Predicate)
    (body : Ret -> iteratorbase -> Drivers -> Ret * Drivers) : Prop :=
  forall acc d s self, P (snd (body acc d s)) self = P s self.

Definition probe_preserves (P : Predicate)
    (f : iteratorbase -> Drivers -> bool * Drivers) : Prop :=
  forall d s self, P (snd (f d s)) self = P s self.

(** [f] applied to the listed slots in order, threading the contents of the
    tuple. *)
Definition apply_each (f : iteratorbase -> Drivers -> Drivers)
    (l : list N) (s : Drivers) : Drivers :=
  fold_left (fun s' i => f {| idx := i |} s') l s.

(** A callback of [apply] leaves the answers of a predicate as they are. *)
Definition action_preserves (P : Predicate)
    (f : iteratorbase -> Drivers -> Drivers) : Prop :=
  forall d s self, P (f d s) self = P s self.

(** The probe that answers the opposite of [f], with the same effects. *)
Definition negated {Args : Type}
    (f : iteratorbase -> Args -> Drivers -> bool * Drivers)
    : iteratorbase -> Args -> Drivers -> bool * Drivers :=
  fun d args s => let '(r, s') := f d args s in (negb r, s').

(** The outcome of a call with its boolean result negated. *)
Definition negate_result (c : Outcome (bool * Drivers))
    : Outcome (bool * Drivers) :=
  r <- c ;; Returns (negb (fst r), snd r).

(** A callback for [reduce] that appends the index of the cursor it is given
    to the list it has so far. *)
Definition collect (reduced : list N) (d : iteratorbase) (_ : unit)
    (s : Drivers) : list N * Drivers :=
  (reduced ++ [idx d], s).

End Visit.
End Visit.

(* ===================================================================== *)
(** ** A machine to run the model on *)
(* ===================================================================== *)

Module Machine.
Import IODrivers.
Local Open Scope N_scope.

#[export] Instance header : Event.Header := {| Event.NULL_STEPPER_ID := 255 |}.

(** A driver: what kind of device it is, the event it has pending (the null
    event when none), and how many more idle calls it wants. *)
Record Driver : Type := {
  drv_isFan : bool;
  drv_isHotend : bool;
  drv_isHeatedBed : bool;
  drv_isServo : bool;
  drv_isEndstop : bool;
  drv_next : Event.Event;
  drv_idleWork : nat
}.

Definition nullEvent : Event.Event :=
  Event.Event_ctor 0%Z Event.NULL_STEPPER_ID Event.StepForward.

Definition noDriver : Driver :=
  {| drv_isFan := false; drv_isHotend := false; drv_isHeatedBed := false;
     drv_isServo := false; drv_isEndstop := false;
     drv_next := nullEvent; drv_idleWork := 0%nat |}.

Definition at_slot (s : list Driver) (i : N) : Driver :=
  nth (N.to_nat i) s noDriver.

Fixpoint set_slot (s : list Driver) (i : nat) (d : Driver) : list Driver :=
  match s, i with
  | [], _ => []
  | _ :: s', O => d :: s'
  | x :: s', S i' => x :: set_slot s' i' d
  end.

(** [onIdleCpu] of a driver: it asks for more time while it has work left. *)
Definition drv_onIdleCpu (d : Driver) : bool * Driver :=
  match drv_idleWork d with
  | O => (false, d)
  | S w =>
      (true,
       {| drv_isFan := drv_isFan d; drv_isHotend := drv_isHotend d;
          drv_isHeatedBed := drv_isHeatedBed d; drv_isServo := drv_isServo d;
          drv_isEndstop := drv_isEndstop d; drv_next := drv_next d;
          drv_idleWork := w |})
  end.

Definition SIZE_MAX32 : N := 4294967295.

(** A tuple of [n] such drivers on a target with a 32-bit [std::size_t]. *)
Definition machine (n : N) (Hn : n <= SIZE_MAX32) : Instantiation :=
  {| SIZE_MAX := SIZE_MAX32;
     Drivers := list Driver;
     tuple_size := n;
     tuple_size_fits := Hn;
     OutputEvent := Event.Event;
     OutputEvent_ctor := nullEvent;
     isNull := Event.isNull;
     time := Event.time;
     OutputEvent_ctor_isNull := eq_refl;
     OnIdleCpuIntervalT := unit;
     tupleCallOnIndex_IsFan := fun s i => drv_isFan (at_slot s i);
     tupleCallOnIndex_IsHotend := fun s i => drv_isHotend (at_slot s i);
     tupleCallOnIndex_IsHeatedBed := fun s i => drv_isHeatedBed (at_slot s i);
     tupleCallOnIndex_IsServo := fun s i => drv_isServo (at_slot s i);
     tupleCallOnIndex_IsEndstop := fun s i => drv_isEndstop (at_slot s i);
     tupleCallOnIndex_PeekNextEvent := fun s i => drv_next (at_slot s i);
     tupleCallOnIndex_OnIdleCpu := fun s i _ =>
       let '(r, d) := drv_onIdleCpu (at_slot s i) in
       (r, set_slot s (N.to_nat i) d) |}.

Definition fits (n : N) : (n <=? SIZE_MAX32) = true -> n <= SIZE_MAX32 :=
  proj1 (N.leb_le n SIZE_MAX32).

Definition machine0 : Instantiation := machine (fits 0 eq_refl).
Definition machine3 : Instantiation := machine (fits 3 eq_refl).

(** The device set {stepperAxis0, fan0, endstop0}; the stepper has an event
    pending at t = 0.002 s (ticks are nanoseconds), the fan has idle work. *)
Definition stepperAxis0 : Driver :=
  {| drv_isFan := false; drv_isHotend := false; drv_isHeatedBed := false;
     drv_isServo := false; drv_isEndstop := false;
     drv_next := Event.Event_ctor 2000000%Z 0 Event.StepForward;
     drv_idleWork := 0%nat |}.
Definition fan0 : Driver :=
  {| drv_isFan := true; drv_isHotend := false; drv_isHeatedBed := false;
     drv_isServo := false; drv_isEndstop := false;
     drv_next := nullEvent; drv_idleWork := 2%nat |}.
Definition endstop0 : Driver :=
  {| drv_isFan := false; drv_isHotend := false; drv_isHeatedBed := false;
     drv_isServo := false; drv_isEndstop := true;
     drv_next := nullEvent; drv_idleWork := 0%nat |}.

Definition printer : list Driver := [stepperAxis0; fan0; endstop0].

(** The same device set with nothing pending on any driver. *)
Definition idleStepper : Driver :=
  {| drv_isFan := false; drv_isHotend := false; drv_isHeatedBed := false;
     drv_isServo := false; drv_isEndstop := false;
     drv_next := nullEvent; drv_idleWork := 0%nat |}.
Definition quietPrinter : list Driver := [idleStepper; fan0; endstop0].

(** A predicate that rejects every cursor, and a probe that is never true. *)
Definition Never {I : Instantiation} : Predicate := fun _ _ => false.

End Machine.

(* ===================================================================== *)
(** ** A second machine, with drivers that can be commanded *)
(* ===================================================================== *)

Module Bench.
Import IODrivers.
Local Open Scope N_scope.
#[local] Existing Instance Machine.header.

Inductive Kind : Type := Stepper | Fan | Hotend | HeatedBed | Servo | Endstop.

Definition Kind_eqb (a b : Kind) : bool :=
  match a, b with
  | Stepper, Stepper | Fan, Fan | Hotend, Hotend | HeatedBed, HeatedBed
  | Servo, Servo | Endstop, Endstop => true
  | _, _ => false
  end.

(** A driver: its kind, whether its axis is locked, the duty cycle and the
    target temperature it was last given, its pending event, and the idle
    calls it still wants. *)
Record Device : Type := {
  kind : Kind;
  locked : bool;
  duty : Z;
  target : Z;
  next : Event.Event;
  idle : nat
}.

Definition spare : Device :=
  {| kind := Stepper; locked := false; duty := 0; target := 0;
     next := Machine.nullEvent; idle := 0 |}.

Definition at_slot (s : list Device) (i : N) : Device :=
  nth (N.to_nat i) s spare.

Fixpoint update (s : list Device) (i : nat) (g : Device -> Device)
    : list Device :=
  match s, i with
  | [], _ => []
  | x :: s', O => g x :: s'
  | x :: s', S i' => x :: update s' i' g
  end.

Definition with_locked (b : bool) (d : Device) : Device :=
  {| kind := kind d; locked := b; duty := duty d; target := target d;
     next := next d; idle := idle d |}.
Definition with_duty (z : Z) (d : Device) : Device :=
  {| kind := kind d; locked := locked d; duty := z; target := target d;
     next := next d; idle := idle d |}.
Definition with_target (z : Z) (d : Device) : Device :=
  {| kind := kind d; locked := locked d; duty := duty d; target := z;
     next := next d; idle := idle d |}.
Definition with_idle (n : nat) (d : Device) : Device :=
  {| kind := kind d; locked := locked d; duty := duty d; target := target d;
     next := next d; idle := n |}.

(** A tuple of [n] such drivers, 32-bit [std::size_t] and [int]. *)
Definition bench (n : N) (Hn : n <= Machine.SIZE_MAX32) : Instantiation :=
  {| SIZE_MAX := Machine.SIZE_MAX32;
     Drivers := list Device;
     tuple_size := n;
     tuple_size_fits := Hn;
     OutputEvent := Event.Event;
     OutputEvent_ctor := Machine.nullEvent;
     isNull := Event.isNull;
     time := Event.time;
     OutputEvent_ctor_isNull := eq_refl;
     OnIdleCpuIntervalT := unit;
     tupleCallOnIndex_IsFan := fun s i => Kind_eqb (kind (at_slot s i)) Fan;
     tupleCallOnIndex_IsHotend :=
       fun s i => Kind_eqb (kind (at_slot s i)) Hotend;
     tupleCallOnIndex_IsHeatedBed :=
       fun s i => Kind_eqb (kind (at_slot s i)) HeatedBed;
     tupleCallOnIndex_IsServo := fun s i => Kind_eqb (kind (at_slot s i)) Servo;
     tupleCallOnIndex_IsEndstop :=
       fun s i => Kind_eqb (kind (at_slot s i)) Endstop;
     tupleCallOnIndex_PeekNextEvent := fun s i => next (at_slot s i);
     tupleCallOnIndex_OnIdleCpu := fun s i _ =>
       match idle (at_slot s i) with
       | O => (false, s)
       | S w => (true, update s (N.to_nat i) (with_idle w))
       end |}.

Definition commands (n : N) (Hn : n <= Machine.SIZE_MAX32)
    : Actuators (bench Hn) :=
  {| float := Z;
     CelciusType := Z;
     tupleCallOnIndex_LockAxis :=
       fun (s : @Drivers (bench Hn)) i =>
         (update s (N.to_nat i) (with_locked true) : @Drivers (bench Hn));
     tupleCallOnIndex_UnlockAxis :=
       fun (s : @Drivers (bench Hn)) i =>
         (update s (N.to_nat i) (with_locked false) : @Drivers (bench Hn));
     tupleCallOnIndex_SetFanDutyCycle :=
       fun (s : @Drivers (bench Hn)) i z =>
         (update s (N.to_nat i) (with_duty z) : @Drivers (bench Hn));
     tupleCallOnIndex_SetTargetTemperature :=
       fun (s : @Drivers (bench Hn)) i z =>
         (update s (N.to_nat i) (with_target z) : @Drivers (bench Hn)) |}.

Definition int32 : IntT := {| INT_MAX := 2147483647 |}.

Definition bench5 : Instantiation := bench (Machine.fits 5 eq_refl).
Definition commands5 : Actuators bench5 := commands (Machine.fits 5 eq_refl).

Definition device (k : Kind) (e : Event.Event) (w : nat) : Device :=
  {| kind := k; locked := false; duty := 0; target := 0; next := e;
     idle := w |}.

(** A hotend, two steppers with events pending at the same time, a fan with
    idle work, and a heated bed. *)
Definition rig : list Device :=
  [ device Hotend Machine.nullEvent 0;
    device Stepper (Event.Event_ctor 5000%Z 0 Event.StepForward) 0;
    device Stepper (Event.Event_ctor 5000%Z 1 Event.StepBackward) 0;
    device Fan Machine.nullEvent 3;
    device HeatedBed Machine.nullEvent 1 ].

(** A clock that ticks in nanoseconds, and one that ticks in microseconds. *)
Definition nanoClock : Event.Clock :=
  {| Event.tick_num := 1; Event.tick_den := 1000000000 |}.
Definition microClock : Event.Clock :=
  {| Event.tick_num := 1; Event.tick_den := 1000000 |}.

(** Two callbacks to try on the rig: a tally of the drivers that ask for more
    idle time, and a probe that only reads the kind of the driver. *)
Definition idleTally (reduced : nat) (d : iteratorbase) (interval : unit)
    (s : list Device) : nat * list Device :=
  let '(r, s') := @GenericOnIdleCpu bench5 d interval s in
  (if r then S reduced else reduced, s').

Definition isStepper (d : iteratorbase) (_ : unit) (s : list Device)
    : bool * list Device :=
  (Kind_eqb (kind (at_slot s (idx d))) Stepper, s).

End Bench.

(* ===================================================================== *)
(** ** Properties *)
(* ===================================================================== *)

(** *** event.cpp *)

Section EventProperties.
Import Event.
Local Open Scope Z_scope.

(** C7.  Offsetting an event by a duration [d] gives an event whose scheduled
    time is the original time plus [d]; its device index ([stepperId]) and its
    direction are those of the original event. *)
Theorem offset_adds_to_time_only (e : Event) (d : duration) :
  time (offset e d) = time e + d
  /\ stepperId (offset e d) = stepperId e
  /\ direction (offset e d) = direction e.
Proof.
  destruct e as [t n fwd]; unfold time, stepperId, direction, offset; simpl.
  repeat split.
Qed.

(** C8.  [e1 < e2] holds exactly when the scheduled time of [e1] is strictly
    earlier than that of [e2], and [e1 > e2] exactly when it is strictly
    later; two pairs of events with the same times compare alike whatever
    their device indices and directions; an event at 1.000 s is less than an
    event at 1.5 s on any other device (ticks are nanoseconds). *)
Theorem order_is_by_time_only :
  (forall e1 e2 : Event, lt e1 e2 = true <-> time e1 < time e2)
  /\ (forall e1 e2 : Event, gt e1 e2 = true <-> time e1 > time e2)
  /\ (forall e1 e2 e1' e2' : Event,
        time e1 = time e1' -> time e2 = time e2' ->
        lt e1 e2 = lt e1' e2' /\ gt e1 e2 = gt e1' e2')
  /\ (forall (n1 n2 : AxisIdType) (d1 d2 : StepDirection),
        lt (Event_ctor 1000000000 n1 d1) (Event_ctor 1500000000 n2 d2) = true
        /\ gt (Event_ctor 1000000000 n1 d1) (Event_ctor 1500000000 n2 d2)
           = false).
Proof.
  repeat split.
  - unfold lt; intros H; now apply Z.ltb_lt.
  - unfold lt; intros H; now apply Z.ltb_lt.
  - unfold gt; intros H; rewrite Z.gtb_ltb in H; apply Z.ltb_lt in H; lia.
  - unfold gt; intros H; rewrite Z.gtb_ltb; apply Z.ltb_lt; lia.
  - unfold lt; congruence.
  - unfold gt; congruence.
Qed.

End EventProperties.

(** *** Cursors *)

Section CursorProperties.
Import IODrivers Visit.
Context `{I : Instantiation}.
Local Open Scope N_scope.

Lemma size_incr_below (i : N) : i < tuple_size -> size_incr i = i + 1.
Proof.
  intros Hi. unfold size_incr.
  pose proof tuple_size_fits as Hfit.
  destruct (N.eqb_spec i SIZE_MAX); [lia | reflexivity].
Qed.

Lemma isAtEnd_true (it : iteratorbase) :
  isAtEnd it = true <-> idx it = tuple_size.
Proof. unfold isAtEnd. apply N.eqb_eq. Qed.

Lemma isAtEnd_false (it : iteratorbase) :
  isAtEnd it = false <-> idx it <> tuple_size.
Proof. unfold isAtEnd. apply N.eqb_neq. Qed.

(** From a cursor below the end the loop of [operator++] stops, with enough
    fuel, on the first later slot the predicate accepts, or on the end. *)
Lemma incr_loop_below (P : Predicate) (s : Drivers) :
  forall (fuel : nat) (i : N),
    i < tuple_size ->
    (N.to_nat (tuple_size - i) <= fuel)%nat ->
    exists j,
      incr_loop fuel P s {| idx := i |} = Returns {| idx := j |}
      /\ i < j <= tuple_size
      /\ (forall k, i < k < j -> accepts P s k = false)
      /\ (j < tuple_size -> accepts P s j = true).
Proof.
  induction fuel as [|fuel IH]; intros i Hi Hfuel; [lia|].
  simpl.
  destruct (isAtEnd {| idx := i |}) eqn:Hend.
  { apply isAtEnd_true in Hend; simpl in Hend; lia. }
  rewrite (size_incr_below Hi).
  destruct (P s {| idx := i + 1 |}) eqn:HP; simpl.
  - exists (i + 1). repeat split; try lia.
    intros _. exact HP.
  - destruct (isAtEnd {| idx := i + 1 |}) eqn:Hend'; simpl.
    + apply isAtEnd_true in Hend'; simpl in Hend'.
      exists (i + 1). repeat split; lia.
    + apply isAtEnd_false in Hend'; simpl in Hend'.
      destruct (IH (i + 1)) as (j & Hj & Hrange & Hskip & Hacc); try lia.
      exists j. repeat split; try lia; try assumption.
      intros k Hk. destruct (N.eq_dec k (i + 1)) as [->|Hne].
      * exact HP.
      * apply Hskip; lia.
Qed.

Lemma steps_to_end_below (i : N) :
  i <= tuple_size -> steps_to_end i = tuple_size - i.
Proof.
  intros Hi. unfold steps_to_end.
  destruct (N.leb_spec i tuple_size); [reflexivity | lia].
Qed.

Lemma operator_incr_below (P : Predicate) (s : Drivers) (i : N) :
  i < tuple_size ->
  exists j,
    operator_incr P s {| idx := i |} = Returns {| idx := j |}
    /\ i < j <= tuple_size
    /\ (forall k, i < k < j -> accepts P s k = false)
    /\ (j < tuple_size -> accepts P s j = true).
Proof.
  intros Hi. unfold operator_incr; simpl idx.
  apply incr_loop_below; [assumption|].
  rewrite steps_to_end_below by lia. lia.
Qed.

Lemma operator_incr_at_end (P : Predicate) (s : Drivers) (it : iteratorbase) :
  idx it = tuple_size -> operator_incr P s it = AssertionFailed.
Proof.
  intros Hend. unfold operator_incr; simpl.
  apply isAtEnd_true in Hend. now rewrite Hend.
Qed.

(** The fuel given to the loop of [operator++] is enough from every index a
    [std::size_t] can hold: the model never stops the loop early. *)
Lemma incr_loop_has_fuel (P : Predicate) (s : Drivers) :
  forall (fuel : nat) (i : N),
    i <= SIZE_MAX ->
    (1 <= fuel)%nat ->
    (N.to_nat (steps_to_end i) <= fuel)%nat ->
    incr_loop fuel P s {| idx := i |} <> OutOfFuel.
Proof.
  pose proof tuple_size_fits as Hfit.
  induction fuel as [|fuel IH]; intros i Hi H1 Hfuel; [lia|].
  simpl.
  destruct (isAtEnd {| idx := i |}) eqn:Hend; [discriminate|].
  apply isAtEnd_false in Hend; simpl in Hend.
  destruct (negb (P s {| idx := size_incr i |})
            && negb (isAtEnd {| idx := size_incr i |})) eqn:Hgo;
    [|discriminate].
  apply andb_true_iff in Hgo as [_ Hend'].
  apply negb_true_iff, isAtEnd_false in Hend'; simpl in Hend'.
  revert Hend' Hfuel. unfold steps_to_end, size_incr.
  intros Hend' Hfuel.
  apply IH; unfold steps_to_end, size_incr in *;
    destruct (N.eqb_spec i SIZE_MAX);
    repeat match goal with
           | |- context [?a <=? ?b] => destruct (N.leb_spec a b)
           | H : context [?a <=? ?b] |- _ => destruct (N.leb_spec a b)
           end; lia.
Qed.

Lemma operator_incr_terminates (P : Predicate) (s : Drivers)
    (it : iteratorbase) :
  idx it <= SIZE_MAX -> operator_incr P s it <> OutOfFuel.
Proof.
  intros Hi. destruct it as [i]; simpl in Hi. unfold operator_incr; simpl idx.
  apply incr_loop_has_fuel; lia.
Qed.

(** C9.  Incrementing a cursor whose index equals the size of the container
    fails the assertion (the call does not return a cursor); incrementing a
    cursor whose index is strictly below the size returns a cursor, without
    failing the assertion, whose index is greater than the old index and at
    most the size. *)
Theorem increment_asserts_only_at_end (P : Predicate) (s : Drivers)
    (it : iteratorbase) :
  (idx it = tuple_size -> operator_incr P s it = AssertionFailed)
  /\ (idx it < tuple_size ->
      exists it', operator_incr P s it = Returns it'
                  /\ idx it < idx it' <= tuple_size).
Proof.
  split.
  - apply operator_incr_at_end.
  - intros Hlt. destruct it as [i]; simpl in *.
    destruct (operator_incr_below P s Hlt) as (j & Hj & Hrange & _).
    exists {| idx := j |}. split; [exact Hj | exact Hrange].
Qed.

End CursorProperties.

(** *** The fold *)

Section FoldProperties.
Import IODrivers Visit.
Context `{I : Instantiation}.
Local Open Scope N_scope.

Lemma filter_iota_skip (p : N -> bool) :
  forall (m n : nat) (a : N),
    (forall k, a <= k < a + N.of_nat m -> p k = false) ->
    List.filter p (iota (m + n) a) = List.filter p (iota n (a + N.of_nat m)).
Proof.
  induction m as [|m IH]; intros n a Hskip.
  - simpl. now rewrite N.add_0_r.
  - simpl Nat.add. simpl iota. simpl List.filter.
    rewrite (Hskip a) by lia.
    rewrite IH.
    + f_equal. f_equal. lia.
    + intros k Hk. apply Hskip. lia.
Qed.

Lemma In_iota (n : nat) : forall (a k : N),
  In k (iota n a) <-> a <= k < a + N.of_nat n.
Proof.
  induction n as [|n IH]; intros a k; simpl iota.
  - simpl. lia.
  - simpl In. rewrite IH. lia.
Qed.

Lemma In_slots (k : N) : In k slots <-> k < tuple_size.
Proof. unfold slots. rewrite In_iota. lia. Qed.

Lemma In_matching (P : Predicate) (s : Drivers) (k : N) :
  In k (matching P s) <-> k < tuple_size /\ accepts P s k = true.
Proof. unfold matching. rewrite filter_In, In_slots. tauto. Qed.

Lemma end_returns (P : Predicate) (s : Drivers) :
  end_ P s = Returns {| idx := tuple_size |}.
Proof. reflexivity. Qed.

Lemma matching_from_skip (P : Predicate) (s : Drivers) (i j : N) :
  i <= j <= tuple_size ->
  (forall k, i <= k < j -> accepts P s k = false) ->
  matching_from P s i = matching_from P s j.
Proof.
  intros Hij Hskip. unfold matching_from.
  replace (N.to_nat (tuple_size - i))
    with (N.to_nat (j - i) + N.to_nat (tuple_size - j))%nat by lia.
  rewrite filter_iota_skip.
  - f_equal. f_equal. lia.
  - intros k Hk. apply Hskip. lia.
Qed.

Lemma matching_from_cons (P : Predicate) (s : Drivers) (j : N) :
  j < tuple_size -> accepts P s j = true ->
  matching_from P s j = j :: matching_from P s (j + 1).
Proof.
  intros Hj Hacc. unfold matching_from.
  replace (N.to_nat (tuple_size - j))
    with (S (N.to_nat (tuple_size - (j + 1)))) by lia.
  simpl. now rewrite Hacc.
Qed.

Lemma matching_from_ext (P : Predicate) (s s' : Drivers) (j : N) :
  (forall self, P s' self = P s self) ->
  matching_from P s' j = matching_from P s j.
Proof.
  intros Hsame. unfold matching_from. apply filter_ext.
  intros k. unfold accepts. apply Hsame.
Qed.

(** The loop of [reduce], started on a slot the view selects (or on the end),
    is the left fold of the body over the slots selected from there on. *)
Lemma range_for_is_fold {Ret : Type} (P : Predicate)
    (body : Ret -> iteratorbase -> Drivers -> Ret * Drivers) :
  preserves P body ->
  forall (fuel : nat) (j : N) (acc : Ret) (s : Drivers),
    j <= tuple_size ->
    (j < tuple_size -> accepts P s j = true) ->
    (N.to_nat (tuple_size - j) < fuel)%nat ->
    range_for fuel P body {| idx := j |} {| idx := tuple_size |} acc s
    = Returns (fold_cursors body (matching_from P s j) acc s).
Proof.
  intros Hpres.
  induction fuel as [|fuel IH]; intros j acc s Hj Hacc Hfuel; [lia|].
  simpl range_for. unfold iteratorbase_neqb, iteratorbase_eqb. simpl idx.
  destruct (N.eqb_spec j tuple_size) as [->|Hne]; simpl negb; cbv iota.
  - unfold matching_from. rewrite N.sub_diag. reflexivity.
  - assert (Hlt : j < tuple_size) by lia.
    rewrite (matching_from_cons P s Hlt (Hacc Hlt)). simpl fold_cursors.
    pose proof (Hpres acc {| idx := j |} s) as Hsame.
    destruct (body acc {| idx := j |} s) as [acc' s']; simpl snd in Hsame.
    destruct (operator_incr_below P s' Hlt) as (j' & Hj' & Hrange & Hskip & Hacc').
    rewrite Hj'. simpl bind.
    rewrite IH; try lia.
    + rewrite (@matching_from_ext P s s' j' Hsame).
      rewrite (@matching_from_skip P s (j + 1) j'); try lia; [reflexivity|].
      intros k Hk. unfold accepts. rewrite <- Hsame. apply Hskip. lia.
    + exact Hacc'.
Qed.

(** [begin()] returns the first slot the view selects, or the end; it fails
    the assertion only on an empty tuple whose predicate rejects index 0. *)
Lemma begin_first_match (P : Predicate) (s : Drivers) :
  tuple_size <> 0 \/ accepts P s 0 = true ->
  exists j,
    begin P s = Returns {| idx := j |}
    /\ j <= tuple_size
    /\ (j < tuple_size -> accepts P s j = true)
    /\ matching P s = matching_from P s j.
Proof.
  intros Hok. unfold begin, iterator_ctor. simpl andb.
  assert (Hall : matching P s = matching_from P s 0).
  { unfold matching, matching_from, slots. now rewrite N.sub_0_r. }
  destruct (P s {| idx := 0 |}) eqn:HP0; simpl negb; cbv iota.
  - exists 0. repeat split; try lia; try assumption.
    intros _. exact HP0.
  - assert (Hpos : 0 < tuple_size).
    { destruct Hok as [Hne | Hacc]; [lia|].
      unfold accepts in Hacc. congruence. }
    destruct (operator_incr_below P s Hpos) as (j & Hj & Hrange & Hskip & Hacc).
    exists j. repeat split; try lia; try assumption.
    rewrite Hall. apply matching_from_skip; [lia|].
    intros k Hk. destruct (N.eq_dec k 0) as [->|Hne]; [exact HP0|].
    apply Hskip. lia.
Qed.

Lemma begin_on_empty_tuple (P : Predicate) (s : Drivers) :
  tuple_size = 0 -> accepts P s 0 = false -> begin P s = AssertionFailed.
Proof.
  intros Hsize HP. unfold begin, iterator_ctor. simpl andb.
  unfold accepts in HP. rewrite HP. simpl negb. cbv iota.
  apply operator_incr_at_end. simpl. now rewrite Hsize.
Qed.

(** [reduce] is the left fold of [f] over the slots the view selects, in
    ascending order, whenever [begin()] returns. *)
Lemma reduce_is_fold {Ret Args : Type} (P : Predicate)
    (f : Ret -> iteratorbase -> Args -> Drivers -> Ret * Drivers)
    (dflt : Ret) (args : Args) (s : Drivers) :
  preserves P (fun reduced d => f reduced d args) ->
  tuple_size <> 0 \/ accepts P s 0 = true ->
  reduce P f dflt args s
  = Returns (fold_cursors (fun reduced d => f reduced d args)
               (matching P s) dflt s).
Proof.
  intros Hpres Hok. unfold reduce.
  destruct (begin_first_match P s Hok) as (j & Hb & Hj & Hacc & Hall).
  rewrite Hb, end_returns. cbn [bind].
  rewrite (range_for_is_fold Hpres); try assumption; try lia.
  now rewrite Hall.
Qed.

Lemma reduce_on_empty_tuple {Ret Args : Type} (P : Predicate)
    (f : Ret -> iteratorbase -> Args -> Drivers -> Ret * Drivers)
    (dflt : Ret) (args : Args) (s : Drivers) :
  tuple_size = 0 -> accepts P s 0 = false ->
  reduce P f dflt args s = AssertionFailed.
Proof.
  intros Hsize HP. unfold reduce.
  now rewrite (begin_on_empty_tuple P s Hsize HP).
Qed.

(** The whole container: every slot is selected, and [begin()] is slot 0. *)
Lemma matching_iter (s : Drivers) : matching iter s = slots.
Proof.
  unfold matching. apply forallb_filter_id.
  apply forallb_forall. reflexivity.
Qed.

Lemma preserves_iter {Ret : Type}
    (body : Ret -> iteratorbase -> Drivers -> Ret * Drivers) :
  preserves iter body.
Proof. intros acc d s self. reflexivity. Qed.

Lemma reduce_iter_is_fold {Ret Args : Type}
    (f : Ret -> iteratorbase -> Args -> Drivers -> Ret * Drivers)
    (dflt : Ret) (args : Args) (s : Drivers) :
  reduce iter f dflt args s
  = Returns (fold_cursors (fun reduced d => f reduced d args) slots dflt s).
Proof.
  rewrite reduce_is_fold.
  - now rewrite matching_iter.
  - apply preserves_iter.
  - right. reflexivity.
Qed.

End FoldProperties.

(** *** The loops of the model always have fuel left *)

Section Termination.
Import IODrivers Visit.
Context `{I : Instantiation}.
Local Open Scope N_scope.

Lemma range_for_has_fuel {Ret : Type} (P : Predicate)
    (body : Ret -> iteratorbase -> Drivers -> Ret * Drivers) :
  forall (fuel : nat) (j : N) (acc : Ret) (s : Drivers),
    j <= tuple_size ->
    (N.to_nat (tuple_size - j) < fuel)%nat ->
    range_for fuel P body {| idx := j |} {| idx := tuple_size |} acc s
    <> OutOfFuel.
Proof.
  induction fuel as [|fuel IH]; intros j acc s Hj Hfuel; [lia|].
  simpl range_for. unfold iteratorbase_neqb, iteratorbase_eqb. simpl idx.
  destruct (N.eqb_spec j tuple_size) as [->|Hne]; simpl negb; cbv iota.
  - discriminate.
  - assert (Hlt : j < tuple_size) by lia.
    destruct (body acc {| idx := j |} s) as [acc' s'].
    destruct (operator_incr_below P s' Hlt) as (j' & Hj' & Hrange & _).
    rewrite Hj'. cbn [bind]. apply IH; lia.
Qed.

(** [reduce] returns or fails the assertion; the model never cuts it short. *)
Lemma reduce_terminates {Ret Args : Type} (P : Predicate)
    (f : Ret -> iteratorbase -> Args -> Drivers -> Ret * Drivers)
    (dflt : Ret) (args : Args) (s : Drivers) :
  reduce P f dflt args s <> OutOfFuel.
Proof.
  unfold reduce, begin, iterator_ctor. simpl andb.
  destruct (negb (P s {| idx := 0 |})).
  - destruct (N.eq_dec tuple_size 0) as [Hz|Hnz].
    + rewrite operator_incr_at_end by (simpl; lia). discriminate.
    + assert (Hpos : 0 < tuple_size) by lia.
      destruct (operator_incr_below P s Hpos) as (j & Hj & Hrange & _).
      rewrite Hj, end_returns. cbn [bind].
      apply range_for_has_fuel; lia.
  - rewrite end_returns. cbn [bind]. apply range_for_has_fuel; lia.
Qed.

End Termination.

(** *** [any] and [all] *)

Section AnyAll.
Import IODrivers Visit.
Context `{I : Instantiation}.
Local Open Scope N_scope.

Variable Args : Type.
Variable f : iteratorbase -> Args -> Drivers -> bool * Drivers.
Variable args : Args.

Local Abbreviation any_body sc :=
  (fun reduced d => any_lambda f sc reduced d args).
Local Abbreviation all_body sc :=
  (fun reduced d => all_lambda f sc reduced d args).

Lemma called_probe_each (l : list N) : forall s,
  called (probe_each (fun d => f d args) l s) = l.
Proof.
  unfold called.
  induction l as [|i l IH]; intros s; simpl; [reflexivity|].
  destruct (f {| idx := i |} args s) as [r s'].
  specialize (IH s').
  destruct (probe_each (fun d => f d args) l s') as [rs s'']; simpl in *.
  now rewrite IH.
Qed.

Lemma fold_any_no_short_circuit (l : list N) : forall (acc : bool) s,
  fold_cursors (any_body NO_SHORT_CIRCUIT) l acc s
  = (existsb id (results (probe_each (fun d => f d args) l s)) || acc,
     snd (probe_each (fun d => f d args) l s)).
Proof.
  unfold results.
  induction l as [|i l IH]; intros acc s; simpl; [reflexivity|].
  destruct (f {| idx := i |} args s) as [r s'].
  rewrite IH.
  destruct (probe_each (fun d => f d args) l s') as [rs s'']; simpl.
  f_equal. unfold id at 2. destruct r, acc; simpl;
    rewrite ?orb_true_r, ?orb_false_r; reflexivity.
Qed.

Lemma fold_all_no_short_circuit (l : list N) : forall (acc : bool) s,
  fold_cursors (all_body NO_SHORT_CIRCUIT) l acc s
  = (forallb id (results (probe_each (fun d => f d args) l s)) && acc,
     snd (probe_each (fun d => f d args) l s)).
Proof.
  unfold results.
  induction l as [|i l IH]; intros acc s; simpl; [reflexivity|].
  destruct (f {| idx := i |} args s) as [r s'].
  rewrite IH.
  destruct (probe_each (fun d => f d args) l s') as [rs s'']; simpl.
  f_equal. unfold id at 2. destruct r, acc; simpl;
    rewrite ?andb_true_r, ?andb_false_r; reflexivity.
Qed.

Lemma fold_any_decided (l : list N) : forall s,
  fold_cursors (any_body DO_SHORT_CIRCUIT) l true s = (true, s).
Proof. induction l as [|i l IH]; intros s; simpl; [reflexivity | apply IH]. Qed.

Lemma fold_all_decided (l : list N) : forall s,
  fold_cursors (all_body DO_SHORT_CIRCUIT) l false s = (false, s).
Proof. induction l as [|i l IH]; intros s; simpl; [reflexivity | apply IH]. Qed.

Lemma fold_any_short_circuit (l : list N) : forall s,
  fold_cursors (any_body DO_SHORT_CIRCUIT) l false s
  = (existsb id (results (probe_until true (fun d => f d args) l s)),
     snd (probe_until true (fun d => f d args) l s)).
Proof.
  unfold results.
  induction l as [|i l IH]; intros s; simpl; [reflexivity|].
  destruct (f {| idx := i |} args s) as [r s']. destruct r; simpl.
  - apply fold_any_decided.
  - rewrite IH.
    destruct (probe_until true (fun d => f d args) l s') as [rs s''].
    reflexivity.
Qed.

Lemma fold_all_short_circuit (l : list N) : forall s,
  fold_cursors (all_body DO_SHORT_CIRCUIT) l true s
  = (forallb id (results (probe_until false (fun d => f d args) l s)),
     snd (probe_until false (fun d => f d args) l s)).
Proof.
  unfold results.
  induction l as [|i l IH]; intros s; simpl; [reflexivity|].
  destruct (f {| idx := i |} args s) as [r s']. destruct r; simpl.
  - rewrite IH.
    destruct (probe_until false (fun d => f d args) l s') as [rs s''].
    reflexivity.
  - apply fold_all_decided.
Qed.

(** Stopping at the first [true] (for [any]) or the first [false] (for
    [all]) calls a prefix of the slots and decides the same value. *)
Lemma probe_until_prefix (stop : bool) (l : list N) : forall s,
  exists skipped,
    fst (probe_each (fun d => f d args) l s)
    = fst (probe_until stop (fun d => f d args) l s) ++ skipped.
Proof.
  induction l as [|i l IH]; intros s; simpl.
  - exists []. reflexivity.
  - destruct (f {| idx := i |} args s) as [r s'].
    destruct (IH s') as [skipped Hsk].
    destruct (probe_each (fun d => f d args) l s') as [rs s1].
    destruct (Bool.eqb r stop).
    + exists rs. reflexivity.
    + destruct (probe_until stop (fun d => f d args) l s') as [rs' s2].
      simpl in *. exists skipped. now rewrite Hsk.
Qed.

Lemma probe_until_true_same_value (l : list N) : forall s,
  existsb id (results (probe_until true (fun d => f d args) l s))
  = existsb id (results (probe_each (fun d => f d args) l s)).
Proof.
  unfold results.
  induction l as [|i l IH]; intros s; simpl; [reflexivity|].
  destruct (f {| idx := i |} args s) as [r s'].
  specialize (IH s').
  destruct (probe_each (fun d => f d args) l s') as [rs s1].
  destruct r; simpl; [reflexivity|].
  destruct (probe_until true (fun d => f d args) l s') as [rs' s2].
  simpl in *. exact IH.
Qed.

Lemma probe_until_false_same_value (l : list N) : forall s,
  forallb id (results (probe_until false (fun d => f d args) l s))
  = forallb id (results (probe_each (fun d => f d args) l s)).
Proof.
  unfold results.
  induction l as [|i l IH]; intros s; simpl; [reflexivity|].
  destruct (f {| idx := i |} args s) as [r s'].
  specialize (IH s').
  destruct (probe_each (fun d => f d args) l s') as [rs s1].
  destruct r; simpl; [|reflexivity].
  destruct (probe_until false (fun d => f d args) l s') as [rs' s2].
  simpl in *. exact IH.
Qed.

Lemma any_body_preserves (P : Predicate) (sc : ShortCircuitType) :
  probe_preserves P (fun d => f d args) -> preserves P (any_body sc).
Proof.
  intros Hf reduced d s self. unfold any_lambda.
  destruct sc.
  - specialize (Hf d s self). destruct (f d args s); exact Hf.
  - destruct reduced; [reflexivity | apply Hf].
Qed.

Lemma all_body_preserves (P : Predicate) (sc : ShortCircuitType) :
  probe_preserves P (fun d => f d args) -> preserves P (all_body sc).
Proof.
  intros Hf reduced d s self. unfold all_lambda.
  destruct sc.
  - specialize (Hf d s self). destruct (f d args s); exact Hf.
  - destruct reduced; [apply Hf | reflexivity].
Qed.

(** Without short-circuiting, [any] and [all] call [f] once on every slot the
    view selects, in ascending order, and return the disjunction (the
    conjunction) of the results; with short-circuiting they return the same
    value and call [f] on a prefix of those slots only.  This holds whenever
    [begin()] returns. *)
Lemma any_all_evaluation (P : Predicate) (s : Drivers) :
  probe_preserves P (fun d => f d args) ->
  tuple_size <> 0 \/ accepts P s 0 = true ->
  let every := probe_each (fun d => f d args) (matching P s) s in
  let upto b := probe_until b (fun d => f d args) (matching P s) s in
  called every = matching P s
  /\ any P f NO_SHORT_CIRCUIT args s
     = Returns (existsb id (results every), snd every)
  /\ all P f NO_SHORT_CIRCUIT args s
     = Returns (forallb id (results every), snd every)
  /\ any P f DO_SHORT_CIRCUIT args s
     = Returns (existsb id (results every), snd (upto true))
  /\ all P f DO_SHORT_CIRCUIT args s
     = Returns (forallb id (results every), snd (upto false))
  /\ (forall b, exists skipped, fst every = fst (upto b) ++ skipped).
Proof.
  intros Hf Hok every upto. subst every upto.
  split; [apply called_probe_each|].
  unfold any, all.
  rewrite !reduce_is_fold;
    try assumption;
    try (apply any_body_preserves; assumption);
    try (apply all_body_preserves; assumption).
  rewrite fold_any_no_short_circuit, fold_all_no_short_circuit,
    fold_any_short_circuit, fold_all_short_circuit.
  rewrite orb_false_r, andb_true_r.
  rewrite probe_until_true_same_value, probe_until_false_same_value.
  repeat split.
  intros b. apply probe_until_prefix.
Qed.

(** On a view that selects no slot, [any] is false, [all] is true and the
    tuple is as before ([f] is not called), whenever [begin()] returns. *)
Lemma any_all_on_empty_view (P : Predicate) (sc : ShortCircuitType)
    (s : Drivers) :
  matching P s = [] ->
  tuple_size <> 0 \/ accepts P s 0 = true ->
  any P f sc args s = Returns (false, s)
  /\ all P f sc args s = Returns (true, s).
Proof.
  intros Hnone Hok.
  assert (Hfold : forall (Ret : Type)
            (body : Ret -> iteratorbase -> Args -> Drivers -> Ret * Drivers)
            (dflt : Ret),
            reduce P body dflt args s = Returns (dflt, s)).
  { intros Ret body dflt. unfold reduce.
    destruct (@begin_first_match _ P s Hok)
      as (j & Hb & Hj & Hacc & Hall).
    rewrite Hb, end_returns. cbn [bind].
    assert (Hjend : j = tuple_size).
    { destruct (N.eq_dec j tuple_size) as [|Hne]; [assumption|].
      assert (Hin : In j (matching P s)).
      { apply In_matching. split; [lia | apply Hacc; lia]. }
      rewrite Hnone in Hin. destruct Hin. }
    subst j. simpl. unfold iteratorbase_neqb, iteratorbase_eqb; simpl.
    now rewrite N.eqb_refl. }
  unfold any, all. split; apply Hfold.
Qed.

End AnyAll.

(** *** The scheduling protocol *)

Section Scheduling.
Import IODrivers Visit.
Context `{I : Instantiation}.
Local Open Scope N_scope.

Local Abbreviation peek s i := (tupleCallOnIndex_PeekNextEvent s i).
Local Abbreviation peek_body :=
  (fun reduced d => peekNextEvent_step reduced d tt).

Lemma in_range_spec (a k b : N) :
  (a <=? k) && (k <? b) = true <-> a <= k < b.
Proof. rewrite andb_true_iff, N.leb_le, N.ltb_lt. tauto. Qed.

Ltac range_cases :=
  repeat match goal with
         | E : (_ <=? _) && (_ <? _) = true |- _ =>
             apply in_range_spec in E
         | E : (_ <=? _) && (_ <? _) = false |- _ =>
             apply not_true_iff_false in E; rewrite in_range_spec in E
         end.

Lemma count_occ_iota (n : nat) : forall (a k : N),
  count_occ N.eq_dec (iota n a) k
  = if (a <=? k) && (k <? a + N.of_nat n) then 1%nat else 0%nat.
Proof.
  induction n as [|n IH]; intros a k; simpl iota.
  - simpl count_occ.
    destruct ((a <=? k) && (k <? a + N.of_nat 0)) eqn:E; [|reflexivity].
    range_cases. lia.
  - simpl count_occ. rewrite IH.
    destruct ((a + 1 <=? k) && (k <? a + 1 + N.of_nat n)) eqn:E1;
      destruct ((a <=? k) && (k <? a + N.of_nat (S n))) eqn:E2;
      destruct (N.eq_dec a k) as [Heq|Hne];
      try reflexivity; exfalso; range_cases; lia.
Qed.

(** Every slot of the tuple occurs exactly once among [slots]. *)
Lemma slots_once (k : N) :
  k < tuple_size -> count_occ N.eq_dec slots k = 1%nat.
Proof.
  intros Hk. unfold slots. rewrite count_occ_iota.
  destruct ((0 <=? k) && (k <? 0 + N.of_nat (N.to_nat tuple_size))) eqn:E;
    [reflexivity|].
  exfalso. range_cases. lia.
Qed.

(** C3.  [onIdleCpu(interval)] calls the idle handler of every device: the
    handlers of slots 0, 1, ... (the drivers' own [onIdleCpu], reached through
    [tupleCallOnIndex]) are each called exactly once, one after the other,
    each on the drivers as the call before left them and whatever the earlier
    ones returned, and the call returns true exactly when at least one of
    these calls returned true. *)
Theorem onIdleCpu_calls_every_handler (interval : OnIdleCpuIntervalT)
    (s : Drivers) :
  let run :=
    probe_each (fun d s' => tupleCallOnIndex_OnIdleCpu s' (idx d) interval)
      slots s in
  onIdleCpu interval s = Returns (existsb id (results run), snd run)
  /\ called run = slots
  /\ (forall i, i < tuple_size -> count_occ N.eq_dec (called run) i = 1%nat)
  /\ (existsb id (results run) = true <-> exists i, In (i, true) (fst run)).
Proof.
  intros run.
  assert (Hok : tuple_size <> 0 \/ accepts iter s 0 = true)
    by (right; reflexivity).
  assert (Hpres : probe_preserves iter (fun d => GenericOnIdleCpu d interval))
    by (intros d s' self; reflexivity).
  destruct (@any_all_evaluation _ _ GenericOnIdleCpu interval iter s Hpres Hok)
    as (Hcalled & Hany & _).
  rewrite matching_iter in Hcalled, Hany.
  change (probe_each (fun d => GenericOnIdleCpu d interval) slots s)
    with run in Hcalled, Hany.
  repeat split.
  - exact Hany.
  - exact Hcalled.
  - intros i Hi. rewrite Hcalled. now apply slots_once.
  - intros Hex. apply existsb_exists in Hex as (r & Hin & Hr).
    unfold id in Hr. subst r. unfold results in Hin.
    apply in_map_iff in Hin as ([i r] & Hsnd & Hin). simpl in Hsnd. subst r.
    exists i. exact Hin.
  - intros (i & Hin). apply existsb_exists. exists true. split; [|reflexivity].
    unfold results. apply in_map_iff. exists (i, true). split; [reflexivity|].
    exact Hin.
Qed.

Lemma fold_peek_keeps_tuple (l : list N) : forall acc s,
  snd (fold_cursors peek_body l acc s) = s.
Proof. induction l as [|i l IH]; intros acc s; simpl; [reflexivity|apply IH]. Qed.

(** One step of the fold: the running best is replaced when it is null, or
    when the device's event is not null and strictly earlier. *)
Lemma peekNextEvent_step_cases (reduced : iteratorbase * OutputEvent)
    (d : iteratorbase) (s : Drivers) :
  let curEvt := peek s (idx d) in
  fst (peekNextEvent_step reduced d tt s)
  = if isNull (snd reduced) then (d, curEvt)
    else if isNull curEvt then reduced
    else if (time curEvt <? time (snd reduced))%Z then (d, curEvt)
    else reduced.
Proof.
  unfold peekNextEvent_step, iteratorbase_peekNextEvent. simpl.
  destruct (isNull (snd reduced)); simpl; [reflexivity|].
  destruct (isNull (peek s (idx d))); simpl; [reflexivity|].
  reflexivity.
Qed.

Lemma fold_peek_cons (i : N) (l : list N) (acc : iteratorbase * OutputEvent)
    (s : Drivers) :
  fold_cursors peek_body (i :: l) acc s
  = fold_cursors peek_body l
      (fst (peekNextEvent_step acc {| idx := i |} tt s)) s.
Proof. reflexivity. Qed.

Lemma fold_peek_best (s : Drivers) (l : list N) :
  forall acc : iteratorbase * OutputEvent,
    let r := fst (fold_cursors peek_body l acc s) in
    (isNull (snd r) = true <->
       isNull (snd acc) = true
       /\ forall i, In i l -> isNull (peek s i) = true)
    /\ (isNull (snd r) = false ->
        (r = acc \/ exists i, In i l /\ r = ({| idx := i |}, peek s i))
        /\ (isNull (snd acc) = false -> (time (snd r) <= time (snd acc))%Z)
        /\ (forall i, In i l -> isNull (peek s i) = false ->
                      (time (snd r) <= time (peek s i))%Z)).
Proof.
  induction l as [|i l IH]; intros acc; cbn zeta.
  - simpl. split.
    + split; [intros H; split; [exact H | intros i []] | intros [H _]; exact H].
    + intros Hr. repeat split.
      * now left.
      * intros _. lia.
      * intros i [].
  - rewrite fold_peek_cons, peekNextEvent_step_cases. cbn zeta. simpl idx.
    set (acc' := if isNull (snd acc) then ({| idx := i |}, peek s i)
                 else if isNull (peek s i) then acc
                 else if (time (peek s i) <? time (snd acc))%Z
                      then ({| idx := i |}, peek s i)
                      else acc).
    assert (Hstep : acc' = if isNull (snd acc) then ({| idx := i |}, peek s i)
                 else if isNull (peek s i) then acc
                 else if (time (peek s i) <? time (snd acc))%Z
                      then ({| idx := i |}, peek s i)
                      else acc) by reflexivity.
    clearbody acc'.
    specialize (IH acc'). cbn zeta in IH.
    destruct IH as [IHnull IHbest].
    set (r := fst (fold_cursors peek_body l acc' s)) in *.
    destruct (isNull (snd acc)) eqn:Hacc.
    + (* the running best is null: the device's event replaces it *)
      subst acc'. simpl snd in *. split.
      * rewrite IHnull. split.
        -- intros [Hi Hl]. split; [reflexivity|].
           intros k [<-|Hk]; [exact Hi | now apply Hl].
        -- intros [_ Hl]. split; [apply Hl; now left|].
           intros k Hk. apply Hl. now right.
      * intros Hr. destruct (IHbest Hr) as (Hfrom & Hle & Hmin).
        repeat split.
        -- right. destruct Hfrom as [-> | (k & Hk & ->)].
           ++ exists i. split; [now left | reflexivity].
           ++ exists k. split; [now right | reflexivity].
        -- intros Habs. discriminate.
        -- intros k [<-|Hk] Hnn; [now apply Hle | now apply Hmin].
    + destruct (isNull (peek s i)) eqn:Hcur.
      * (* the device has nothing pending: the running best stays *)
        subst acc'. split.
        -- rewrite IHnull. split; intros [Habs _]; congruence.
        -- intros Hr. destruct (IHbest Hr) as (Hfrom & Hle & Hmin).
           repeat split.
           ++ destruct Hfrom as [-> | (k & Hk & ->)]; [now left|].
              right. exists k. split; [now right | reflexivity].
           ++ intros _. exact (Hle Hacc).
           ++ intros k [<-|Hk] Hnn; [congruence | now apply Hmin].
      * destruct (Z.ltb_spec (time (peek s i)) (time (snd acc))) as [Hlt|Hge].
        -- (* strictly earlier: the device's event replaces the best *)
           subst acc'. simpl snd in *. split.
           ++ rewrite IHnull. split; intros [Habs _]; congruence.
           ++ intros Hr. destruct (IHbest Hr) as (Hfrom & Hle & Hmin).
              specialize (Hle Hcur).
              repeat split.
              ** right. destruct Hfrom as [-> | (k & Hk & ->)].
                 --- exists i. split; [now left | reflexivity].
                 --- exists k. split; [now right | reflexivity].
              ** intros _. lia.
              ** intros k [<-|Hk] Hnn; [exact Hle | now apply Hmin].
        -- (* not earlier: the running best stays *)
           subst acc'. split.
           ++ rewrite IHnull. split; intros [Habs _]; congruence.
           ++ intros Hr. destruct (IHbest Hr) as (Hfrom & Hle & Hmin).
              specialize (Hle Hacc).
              repeat split.
              ** destruct Hfrom as [-> | (k & Hk & ->)]; [now left|].
                 right. exists k. split; [now right | reflexivity].
              ** intros _. exact Hle.
              ** intros k [<-|Hk] Hnn; [simpl; lia | now apply Hmin].
Qed.

Lemma peekNextEvent_is_fold (s : Drivers) :
  peekNextEvent s
  = Returns (fst (fold_cursors peek_body slots
                    ({| idx := tuple_size |}, OutputEvent_ctor) s), s).
Proof.
  unfold peekNextEvent. rewrite end_returns. cbn [bind].
  rewrite reduce_iter_is_fold. f_equal.
  rewrite (surjective_pairing (fold_cursors _ _ _ _)) at 1.
  now rewrite fold_peek_keeps_tuple.
Qed.

(** C1.  [peekNextEvent()] returns a cursor and an event.  The event is null
    exactly when the peeked event of every device is null.  When it is not
    null, the cursor points to a device of the set, the event is that
    device's peeked event, and no device with a non-null peeked event has an
    earlier scheduled time. *)
Theorem peekNextEvent_earliest_pending (s : Drivers) :
  exists (it : iteratorbase) (e : OutputEvent),
    peekNextEvent s = Returns ((it, e), s)
    /\ (isNull e = true <->
        forall i, i < tuple_size -> isNull (peek s i) = true)
    /\ (isNull e = false ->
        idx it < tuple_size
        /\ e = peek s (idx it)
        /\ forall i, i < tuple_size -> isNull (peek s i) = false ->
                     (time e <= time (peek s i))%Z).
Proof.
  rewrite peekNextEvent_is_fold.
  pose proof (fold_peek_best s slots ({| idx := tuple_size |}, OutputEvent_ctor))
    as Hbest. cbn zeta in Hbest.
  destruct (fst (fold_cursors peek_body slots
                   ({| idx := tuple_size |}, OutputEvent_ctor) s))
    as [it e]. simpl snd in Hbest.
  destruct Hbest as [Hnull Hmin].
  exists it, e. split; [reflexivity|]. split.
  - rewrite Hnull. split.
    + intros [_ Hall] i Hi. apply Hall. now apply In_slots.
    + intros Hall. split; [apply OutputEvent_ctor_isNull|].
      intros i Hi. apply Hall. now apply In_slots.
  - intros He. destruct (Hmin He) as (Hfrom & _ & Hle).
    destruct Hfrom as [Hinit | (k & Hk & Hbest)].
    + inversion Hinit; subst.
      rewrite OutputEvent_ctor_isNull in He. discriminate.
    + inversion Hbest; subst. simpl idx. apply In_slots in Hk.
      repeat split; try assumption.
      intros i Hi Hnn. apply Hle; [now apply In_slots | exact Hnn].
Qed.

Lemma last_iota (n : nat) : forall (a d : N),
  last (iota (S n) a) d = a + N.of_nat n.
Proof.
  induction n as [|n IH]; intros a d.
  - simpl. lia.
  - change (iota (S (S n)) a) with (a :: iota (S n) (a + 1)).
    change (last (a :: iota (S n) (a + 1)) d)
      with (last (iota (S n) (a + 1)) d).
    rewrite IH. lia.
Qed.

(** When nothing is pending the fold ends on the last slot it visited. *)
Lemma fold_peek_all_null (s : Drivers) (l : list N) :
  forall acc : iteratorbase * OutputEvent,
    isNull (snd acc) = true ->
    (forall i, In i l -> isNull (peek s i) = true) ->
    fst (fold_cursors peek_body l acc s)
    = match l with
      | [] => acc
      | _ :: _ => ({| idx := last l 0 |}, peek s (last l 0))
      end.
Proof.
  induction l as [|i l IH]; intros acc Hacc Hall; [reflexivity|].
  rewrite fold_peek_cons, peekNextEvent_step_cases. cbn zeta. simpl idx.
  rewrite Hacc. rewrite IH.
  - destruct l; reflexivity.
  - simpl. apply Hall. now left.
  - intros k Hk. apply Hall. now right.
Qed.

(** C2, as the code has it.  When the peeked event of every device is null,
    [peekNextEvent()] returns a null event; the cursor returned with it is the
    end cursor (and the event the default-constructed one) only for an empty
    device set, and otherwise the cursor of the last device, with that
    device's peeked event.  In the fold, on every device set, a device whose
    peek returns null replaces the running best exactly when the event of the
    running best is null; it never replaces a running best whose event is
    not null. *)
Theorem peekNextEvent_nothing_pending (s : Drivers) :
  ((forall i, i < tuple_size -> isNull (peek s i) = true) ->
   exists (it : iteratorbase) (e : OutputEvent),
     peekNextEvent s = Returns ((it, e), s)
     /\ isNull e = true
     /\ (tuple_size = 0 ->
         it = {| idx := tuple_size |} /\ e = OutputEvent_ctor)
     /\ (tuple_size <> 0 ->
         it = {| idx := tuple_size - 1 |} /\ e = peek s (tuple_size - 1)))
  /\ (forall (reduced : iteratorbase * OutputEvent) (d : iteratorbase),
        isNull (peek s (idx d)) = true ->
        peekNextEvent_step reduced d tt s
        = (if isNull (snd reduced) then (d, peek s (idx d)) else reduced, s)).
Proof.
  split.
  - intros Hall. rewrite peekNextEvent_is_fold.
    rewrite fold_peek_all_null;
      [ | apply OutputEvent_ctor_isNull
        | intros i Hi; apply Hall; now apply In_slots ].
    unfold slots.
    destruct (N.to_nat tuple_size) as [|n] eqn:Hn.
    + exists {| idx := tuple_size |}, OutputEvent_ctor.
      split; [reflexivity|]. split; [apply OutputEvent_ctor_isNull|].
      split; [intros _; split; reflexivity | intros Hnz; lia].
    + change (match iota (S n) 0 with
              | [] => ({| idx := tuple_size |}, OutputEvent_ctor)
              | _ :: _ => ({| idx := last (iota (S n) 0) 0 |},
                           peek s (last (iota (S n) 0) 0))
              end)
        with ({| idx := last (iota (S n) 0) 0 |},
              peek s (last (iota (S n) 0) 0)).
      rewrite last_iota.
      replace (0 + N.of_nat n) with (tuple_size - 1) by lia.
      exists {| idx := tuple_size - 1 |}, (peek s (tuple_size - 1)).
      split; [reflexivity|]. split; [apply Hall; lia|].
      split; [intros Hz; lia | intros _; split; reflexivity].
  - intros reduced d Hd.
    unfold peekNextEvent_step, iteratorbase_peekNextEvent.
    rewrite Hd. simpl. now rewrite orb_false_r.
Qed.

End Scheduling.

(** *** The predicate algebra *)

Section PredicateAlgebra.
Import IODrivers Visit.
Context `{I : Instantiation}.
Local Open Scope N_scope.

(** Two predicates that answer alike drive the loops alike. *)
Lemma incr_loop_ext (P Q : Predicate) (s : Drivers) :
  (forall self, P s self = Q s self) ->
  forall fuel it, incr_loop fuel P s it = incr_loop fuel Q s it.
Proof.
  intros Hsame. induction fuel as [|fuel IH]; intros it; [reflexivity|].
  simpl. rewrite Hsame.
  destruct (isAtEnd it); [reflexivity|].
  destruct (negb (Q s {| idx := size_incr (idx it) |})
            && negb (isAtEnd {| idx := size_incr (idx it) |}));
    [apply IH | reflexivity].
Qed.

Lemma range_for_ext {Ret : Type} (P Q : Predicate)
    (body : Ret -> iteratorbase -> Drivers -> Ret * Drivers) :
  (forall s self, P s self = Q s self) ->
  forall fuel it e acc s,
    range_for fuel P body it e acc s = range_for fuel Q body it e acc s.
Proof.
  intros Hsame. induction fuel as [|fuel IH]; intros it e acc s;
    [reflexivity|].
  simpl. destruct (iteratorbase_neqb it e); [|reflexivity].
  destruct (body acc it s) as [acc' s'].
  unfold operator_incr. rewrite (@incr_loop_ext P Q s' (Hsame s')).
  destruct (incr_loop _ Q s' it); simpl; [apply IH | reflexivity ..].
Qed.

Lemma reduce_ext {Ret Args : Type} (P Q : Predicate)
    (f : Ret -> iteratorbase -> Args -> Drivers -> Ret * Drivers)
    (dflt : Ret) (args : Args) (s : Drivers) :
  (forall s' self, P s' self = Q s' self) ->
  reduce P f dflt args s = reduce Q f dflt args s.
Proof.
  intros Hsame. unfold reduce.
  assert (Hbegin : begin P s = begin Q s).
  { unfold begin, iterator_ctor, operator_incr.
    now rewrite Hsame, (@incr_loop_ext P Q s (Hsame s)). }
  rewrite Hbegin, !end_returns.
  destruct (begin Q s) as [b| |]; cbn [bind]; try reflexivity.
  apply range_for_ext. exact Hsame.
Qed.

(** C6.  [A.unionWith(B)] and [B.unionWith(A)] select the same slots of the
    tuple, and every fold over the one view is the fold over the other;
    [heaters()] selects a slot exactly when [hotends()] or [heatedBeds()]
    selects it. *)
Theorem unionWith_commutes_heaters_is_union (A B : Predicate) (s : Drivers) :
  matching (unionWith A B) s = matching (unionWith B A) s
  /\ (forall (Ret Args : Type)
             (f : Ret -> iteratorbase -> Args -> Drivers -> Ret * Drivers)
             (dflt : Ret) (args : Args),
        reduce (unionWith A B) f dflt args s
        = reduce (unionWith B A) f dflt args s)
  /\ (forall i,
        In i (matching heaters s)
        <-> In i (matching hotends s) \/ In i (matching heatedBeds s)).
Proof.
  assert (Hcomm : forall s' self,
            unionWith A B s' self = unionWith B A s' self).
  { intros s' self. unfold unionWith, Union. apply orb_comm. }
  repeat split.
  - unfold matching. apply filter_ext. intros i. unfold accepts. apply Hcomm.
  - intros Ret Args f dflt args. apply reduce_ext. exact Hcomm.
  - rewrite In_matching. unfold heaters, unionWith, Union, accepts.
    rewrite orb_true_iff. intros [Hi [Hh | Hb]].
    + left. apply In_matching. now split.
    + right. apply In_matching. now split.
  - rewrite !In_matching. unfold heaters, unionWith, Union, accepts.
    rewrite orb_true_iff. intros [[Hi Hh] | [Hi Hb]]; split; auto.
Qed.

End PredicateAlgebra.

(** *** [reduce] on small views *)

Section SmallViews.
Import IODrivers Visit.
Context `{I : Instantiation}.
Local Open Scope N_scope.

(** Whenever [begin()] returns: on a view that selects no slot [reduce]
    returns [dflt] and leaves the tuple alone; on a view that selects the one
    slot [d0] it returns [f(dflt, d0)]. *)
Lemma reduce_empty_and_singleton {Ret Args : Type} (P : Predicate)
    (f : Ret -> iteratorbase -> Args -> Drivers -> Ret * Drivers)
    (dflt : Ret) (args : Args) (s : Drivers) :
  preserves P (fun reduced d => f reduced d args) ->
  tuple_size <> 0 \/ accepts P s 0 = true ->
  (matching P s = [] -> reduce P f dflt args s = Returns (dflt, s))
  /\ (forall d0, matching P s = [d0] ->
        reduce P f dflt args s = Returns (f dflt {| idx := d0 |} args s)).
Proof.
  intros Hpres Hok.
  rewrite (@reduce_is_fold _ _ _ P f dflt args s Hpres Hok). split.
  - intros ->. reflexivity.
  - intros d0 ->. simpl. now destruct (f dflt {| idx := d0 |} args s).
Qed.

End SmallViews.

(** *** The model at work on the machine *)

Section OnTheMachine.
Import IODrivers Visit Machine.
Local Open Scope N_scope.

Lemma below_three (i : N) : i < 3 -> i = 0 \/ i = 1 \/ i = 2.
Proof. lia. Qed.

Lemma quietPrinter_nothing_pending (i : N) :
  i < 3 -> Event.isNull (drv_next (at_slot quietPrinter i)) = true.
Proof.
  intros Hi. destruct (below_three Hi) as [-> | [-> | ->]]; reflexivity.
Qed.

(** The scenario of the printer with one stepper event pending. *)
Example printer_next_event :
  @peekNextEvent machine3 printer
  = Returns (({| idx := 0 |}, Event.Event_ctor 2000000%Z 0 Event.StepForward),
             printer).
Proof. vm_compute. reflexivity. Qed.

Example printer_views :
  @empty machine3 fans printer = Returns false
  /\ @matching machine3 fans printer = [1]
  /\ @matching machine3 endstops printer = [2]
  /\ @empty machine3 heaters printer = Returns true
  /\ @matching machine3 heaters printer = [].
Proof. vm_compute. repeat split. Qed.

(** One idle pass calls the fan's handler once: its work goes from 2 to 1. *)
Example printer_idle_pass :
  exists s',
    @onIdleCpu machine3 tt printer = Returns (true, s')
    /\ map drv_idleWork s' = [0; 1; 0]%nat.
Proof. eexists. vm_compute. split; reflexivity. Qed.

(** C2 as stated fails on the printer with nothing pending: every peeked
    event is null, yet the cursor returned is not the end cursor, and in the
    first step of the fold the stepper, whose peek is null, replaces the
    running best. *)
Lemma quiet_printer_cursor_is_not_end :
  (forall i, i < 3 -> Event.isNull (drv_next (at_slot quietPrinter i)) = true)
  /\ @peekNextEvent machine3 quietPrinter
     = Returns (({| idx := 2 |}, nullEvent), quietPrinter)
  /\ @peekNextEvent machine3 quietPrinter
     <> Returns (({| idx := 3 |}, nullEvent), quietPrinter)
  /\ fst (@peekNextEvent_step machine3 ({| idx := 3 |}, nullEvent)
            {| idx := 0 |} tt quietPrinter)
     <> ({| idx := 3 |}, nullEvent).
Proof.
  split; [exact quietPrinter_nothing_pending|].
  split; [vm_compute; reflexivity|].
  split; vm_compute; intros H; discriminate H.
Qed.

Lemma peekNextEvent_nothing_pending_witness :
  (forall i, i < 3 -> Event.isNull (drv_next (at_slot quietPrinter i)) = true)
  /\ (exists (it : iteratorbase) (e : Event.Event),
        @peekNextEvent machine3 quietPrinter = Returns ((it, e), quietPrinter)
        /\ Event.isNull e = true
        /\ (3 = 0 -> it = {| idx := 3 |} /\ e = nullEvent)
        /\ (3 <> 0 ->
            it = {| idx := 2 |} /\ e = drv_next (at_slot quietPrinter 2)))
  /\ Event.isNull (drv_next (at_slot printer 1)) = true
  /\ @peekNextEvent_step machine3
       ({| idx := 0 |}, drv_next stepperAxis0) {| idx := 1 |} tt printer
     = (({| idx := 0 |}, drv_next stepperAxis0), printer)
  /\ @peekNextEvent_step machine3
       ({| idx := 3 |}, nullEvent) {| idx := 1 |} tt printer
     = (({| idx := 1 |}, drv_next (at_slot printer 1)), printer).
Proof.
  split; [exact quietPrinter_nothing_pending|].
  split.
  { apply (@peekNextEvent_nothing_pending machine3 quietPrinter).
    exact quietPrinter_nothing_pending. }
  split; [reflexivity|].
  destruct (@peekNextEvent_nothing_pending machine3 printer) as [_ Hstep].
  split.
  - apply (Hstep ({| idx := 0 |}, drv_next stepperAxis0) {| idx := 1 |}).
    reflexivity.
  - apply (Hstep ({| idx := 3 |}, nullEvent) {| idx := 1 |}).
    reflexivity.
Defined.

Lemma onIdleCpu_calls_every_handler_witness :
  exists s',
    @onIdleCpu machine3 tt printer = Returns (true, s')
    /\ map drv_idleWork s' = [0; 1; 0]%nat
    /\ @called machine3
         (@probe_each machine3
            (fun d s'' => @tupleCallOnIndex_OnIdleCpu machine3 s'' (idx d) tt)
            (@slots machine3) printer)
       = [0; 1; 2].
Proof.
  destruct (@onIdleCpu_calls_every_handler machine3 tt printer)
    as (Hrun & Hcalled & _).
  eexists. split; [exact Hrun|]. split; [reflexivity | exact Hcalled].
Defined.

Lemma increment_asserts_only_at_end_witness :
  @operator_incr machine3 fans printer {| idx := 3 |} = AssertionFailed
  /\ exists it',
       @operator_incr machine3 fans printer {| idx := 0 |} = Returns it'
       /\ 0 < idx it' <= 3.
Proof.
  destruct (@increment_asserts_only_at_end machine3 fans printer {| idx := 3 |})
    as [Hend _].
  destruct (@increment_asserts_only_at_end machine3 fans printer {| idx := 0 |})
    as [_ Hbelow].
  split; [apply Hend; reflexivity | apply Hbelow; reflexivity].
Defined.

(** C5 on a container with no devices.  The view [filter(Never)] selects no
    slot, so [reduce] should return [dflt]; instead the constructor run by
    [begin()] increments the end cursor and the assertion fails. *)
Theorem reduce_fails_on_empty_tuple (Ret : Type)
    (f : Ret -> iteratorbase -> unit -> list Driver -> Ret * list Driver)
    (dflt : Ret) (s : list Driver) :
  @matching machine0 (@filter machine0 Never) s = []
  /\ @reduce machine0 Ret unit (@filter machine0 Never) f dflt tt s
     = AssertionFailed.
Proof. split; reflexivity. Qed.

(** C4 on a container with no devices.  No slot matches, so the disjunction
    of the results is false and the conjunction true, in either mode;
    instead [any] and [all] fail the assertion in [begin()]. *)
Theorem any_all_fail_on_empty_tuple
    (f : iteratorbase -> unit -> list Driver -> bool * list Driver)
    (s : list Driver) :
  let every :=
    @probe_each machine0 (fun d => f d tt)
      (@matching machine0 (@filter machine0 Never) s) s in
  existsb id (@results machine0 every) = false
  /\ forallb id (@results machine0 every) = true
  /\ @any machine0 unit (@filter machine0 Never) f NO_SHORT_CIRCUIT tt s
     = AssertionFailed
  /\ @all machine0 unit (@filter machine0 Never) f NO_SHORT_CIRCUIT tt s
     = AssertionFailed
  /\ @any machine0 unit (@filter machine0 Never) f DO_SHORT_CIRCUIT tt s
     = AssertionFailed
  /\ @all machine0 unit (@filter machine0 Never) f DO_SHORT_CIRCUIT tt s
     = AssertionFailed.
Proof. repeat split. Qed.

(** C10 on a container with no devices.  The predicate matches no device,
    yet [any] does not return false and [all] does not return true, whatever
    the mode: both fail the assertion in [begin()]. *)
Theorem empty_view_of_empty_tuple_is_not_vacuous
    (f : iteratorbase -> unit -> list Driver -> bool * list Driver)
    (mode : ShortCircuitType) (s : list Driver) :
  (forall i, @accepts machine0 (@filter machine0 Never) s i = false)
  /\ @any machine0 unit (@filter machine0 Never) f mode tt s
     <> Returns (false, s)
  /\ @all machine0 unit (@filter machine0 Never) f mode tt s
     <> Returns (true, s).
Proof.
  split; [reflexivity|].
  destruct mode; split; intros H; discriminate H.
Qed.

End OnTheMachine.

(* ===================================================================== *)
(** ** Further properties *)
(* ===================================================================== *)

(** *** event.cpp *)

Section MoreEventProperties.
Import Event.
Context `{H : Header}.
Local Open Scope Z_scope.

(** X1.  The accessors give back what the constructor was given (the
    direction is stored as a flag and read back as the same direction), and
    the event is null exactly when it was constructed with
    [NULL_STEPPER_ID], whatever its time and direction. *)
Theorem constructed_event_reads_back (t : time_point) (n : AxisIdType)
    (dir : StepDirection) :
  time (Event_ctor t n dir) = t
  /\ stepperId (Event_ctor t n dir) = n
  /\ direction (Event_ctor t n dir) = dir
  /\ (isNull (Event_ctor t n dir) = true <-> n = NULL_STEPPER_ID).
Proof.
  repeat split.
  - destruct dir; reflexivity.
  - unfold isNull, stepperId; simpl. apply N.eqb_eq.
  - unfold isNull, stepperId; simpl. intros ->. apply N.eqb_refl.
Qed.

(** X2.  Offsets add up: offsetting by [a] and then by [b] is offsetting by
    [a + b], in either order; offsetting by zero changes nothing; and
    offsetting by [d] and then by [- d] gives the event back. *)
Theorem offsets_compose (e : Event) (a b : duration) :
  offset (offset e a) b = offset e (a + b)
  /\ offset (offset e a) b = offset (offset e b) a
  /\ offset e 0 = e
  /\ offset (offset e a) (- a) = e.
Proof.
  destruct e as [t n fwd]. unfold offset; simpl.
  repeat split; f_equal; lia.
Qed.

(** X3.  Offsetting two events by the same duration keeps their order;
    offsetting keeps an event null or not null; and an event offset by a
    positive duration is later than it was. *)
Theorem offset_keeps_order_and_nullness (e1 e2 : Event) (d : duration) :
  lt (offset e1 d) (offset e2 d) = lt e1 e2
  /\ gt (offset e1 d) (offset e2 d) = gt e1 e2
  /\ isNull (offset e1 d) = isNull e1
  /\ (0 < d -> lt e1 (offset e1 d) = true).
Proof.
  destruct e1 as [t1 n1 f1], e2 as [t2 n2 f2].
  unfold lt, gt, isNull, stepperId, offset, time; simpl.
  repeat split.
  - destruct (Z.ltb_spec (t1 + d) (t2 + d)), (Z.ltb_spec t1 t2);
      try reflexivity; lia.
  - rewrite !Z.gtb_ltb.
    destruct (Z.ltb_spec (t2 + d) (t1 + d)), (Z.ltb_spec t2 t1);
      try reflexivity; lia.
  - intros Hd. apply Z.ltb_lt. lia.
Qed.

(** X4.  [operator<] is a strict order on events and [operator>] is its
    converse: no event is less than itself, [<] is transitive, [e1 > e2] is
    [e2 < e1], and [e1 < e2] excludes [e2 < e1].  Two events are neither
    less nor greater than each other exactly when their times are equal,
    which events on different devices can be. *)
Theorem event_order_is_strict :
  (forall e, lt e e = false)
  /\ (forall e1 e2 e3, lt e1 e2 = true -> lt e2 e3 = true -> lt e1 e3 = true)
  /\ (forall e1 e2, gt e1 e2 = lt e2 e1)
  /\ (forall e1 e2, lt e1 e2 = true -> lt e2 e1 = false)
  /\ (forall e1 e2,
        lt e1 e2 = false /\ gt e1 e2 = false <-> time e1 = time e2)
  /\ (forall (t : time_point) (d : StepDirection),
        let e1 := Event_ctor t 0%N d in
        let e2 := Event_ctor t 1%N d in
        e1 <> e2 /\ lt e1 e2 = false /\ gt e1 e2 = false).
Proof.
  unfold lt, gt.
  split; [intros e; apply Z.ltb_irrefl|].
  split.
  { intros e1 e2 e3 H12 H23. apply Z.ltb_lt in H12, H23. apply Z.ltb_lt. lia. }
  split; [intros e1 e2; apply Z.gtb_ltb|].
  split.
  { intros e1 e2 H12. apply Z.ltb_lt in H12. apply Z.ltb_ge. lia. }
  split.
  { intros e1 e2. rewrite Z.gtb_ltb. split.
    - intros [Hlt Hgt]. apply Z.ltb_ge in Hlt, Hgt. lia.
    - intros Heq. split; apply Z.ltb_ge; lia. }
  intros t d. cbv zeta. rewrite Z.gtb_ltb. simpl.
  rewrite Z.ltb_irrefl. repeat split. intros Heq. discriminate Heq.
Qed.

Section Nanoseconds.
Context `{C : Clock}.

Lemma nanoseconds_to_duration_nonneg (nsec : N) :
  0 <= nanoseconds_to_duration nsec.
Proof.
  unfold nanoseconds_to_duration. apply Z.div_pos; lia.
Qed.

(** X5.  [offsetNano(nsec)] moves the time of the event forward by the whole
    number of clock ticks in [nsec] nanoseconds and by nothing else: the
    device index and the direction stay, the event is never earlier than
    before, a larger [nsec] never gives an earlier time, and an [nsec]
    shorter than one tick leaves the event as it was. *)
Theorem offsetNano_adds_whole_ticks (e : Event) (nsec : N) :
  time (offsetNano e nsec)
  = time e + (Z.of_N nsec * Z.pos tick_den) / (1000000000 * Z.pos tick_num)
  /\ stepperId (offsetNano e nsec) = stepperId e
  /\ direction (offsetNano e nsec) = direction e
  /\ time e <= time (offsetNano e nsec)
  /\ (forall nsec' : N, (nsec <= nsec')%N ->
        time (offsetNano e nsec) <= time (offsetNano e nsec'))
  /\ (Z.of_N nsec * Z.pos tick_den < 1000000000 * Z.pos tick_num ->
      offsetNano e nsec = e).
Proof.
  pose proof (nanoseconds_to_duration_nonneg nsec) as Hpos.
  destruct e as [t n fwd].
  unfold offsetNano, offset, time, stepperId, direction; simpl.
  repeat split.
  - lia.
  - intros nsec' Hle. apply Z.add_le_mono_l.
    unfold nanoseconds_to_duration. apply Z.div_le_mono; [lia|].
    apply Z.mul_le_mono_nonneg_r; lia.
  - intros Hshort. unfold nanoseconds_to_duration.
    rewrite Z.div_small by lia. f_equal. lia.
Qed.

End Nanoseconds.

End MoreEventProperties.

(** *** Cursors, once more *)

Section MoreCursorProperties.
Import IODrivers Visit.
Context `{I : Instantiation}.
Local Open Scope N_scope.

(** X6.  From a cursor below the end, [operator++] stops on the first later
    slot the predicate accepts, or on the end when there is none: it passes
    over no accepted slot and never stops on a rejected one. *)
Theorem increment_finds_next_accepted (P : Predicate) (s : Drivers)
    (it : iteratorbase) :
  idx it < tuple_size ->
  exists it',
    operator_incr P s it = Returns it'
    /\ idx it < idx it' <= tuple_size
    /\ (forall k, idx it < k < idx it' -> accepts P s k = false)
    /\ (idx it' < tuple_size -> accepts P s (idx it') = true).
Proof.
  intros Hlt. destruct it as [i]; simpl in *.
  destruct (operator_incr_below P s Hlt) as (j & Hj & Hrange & Hskip & Hacc).
  exists {| idx := j |}. simpl. auto.
Qed.

Lemma incr_loop_asserts_only_at_end (P : Predicate) (s : Drivers) :
  forall (fuel : nat) (it : iteratorbase),
    idx it <> tuple_size -> incr_loop fuel P s it <> AssertionFailed.
Proof.
  induction fuel as [|fuel IH]; intros it Hne; simpl; [discriminate|].
  destruct (isAtEnd it) eqn:Hend.
  { apply isAtEnd_true in Hend. contradiction. }
  destruct (negb (P s {| idx := size_incr (idx it) |})
            && negb (isAtEnd {| idx := size_incr (idx it) |})) eqn:Hgo;
    [|discriminate].
  apply andb_true_iff in Hgo as [_ Hend'].
  apply negb_true_iff, isAtEnd_false in Hend'. now apply IH.
Qed.

(** X7.  For every index a [std::size_t] can hold, [operator++] fails the
    assertion exactly when the cursor is the end cursor.  A cursor beyond the
    end is not caught: incrementing it returns a cursor, and in the unfiltered
    view it simply moves one index further (wrapping to 0 at [SIZE_MAX]). *)
Theorem increment_asserts_exactly_at_end (P : Predicate) (s : Drivers)
    (it : iteratorbase) :
  idx it <= SIZE_MAX ->
  (operator_incr P s it = AssertionFailed <-> idx it = tuple_size)
  /\ (idx it <> tuple_size -> exists it', operator_incr P s it = Returns it')
  /\ (idx it <> tuple_size ->
      operator_incr NoPredicate s it
      = Returns {| idx := if idx it =? SIZE_MAX then 0 else idx it + 1 |}).
Proof.
  intros Hfit.
  assert (Hret : idx it <> tuple_size ->
                 exists it', operator_incr P s it = Returns it').
  { intros Hne.
    pose proof (operator_incr_terminates P s it Hfit) as Hfuel.
    pose proof (@incr_loop_asserts_only_at_end P s
                  (S (N.to_nat (steps_to_end (idx it)))) it Hne) as Hassert.
    unfold operator_incr in *.
    destruct (incr_loop _ P s it) as [it'| |];
      [now exists it' | contradiction | contradiction]. }
  split; [split|split].
  - intros Hfail. destruct (N.eq_dec (idx it) tuple_size) as [|Hne];
      [assumption|].
    destruct (Hret Hne) as [it' Hit']. congruence.
  - apply operator_incr_at_end.
  - exact Hret.
  - intros Hne. unfold operator_incr. simpl.
    apply isAtEnd_false in Hne. rewrite Hne. reflexivity.
Qed.

(** X8.  [begin()] fails the assertion exactly when the tuple is empty and
    the predicate rejects index 0.  In every other case it returns the first
    slot the predicate accepts, or the end cursor when it accepts none. *)
Theorem begin_is_first_accepted_slot (P : Predicate) (s : Drivers) :
  (begin P s = AssertionFailed
   <-> tuple_size = 0 /\ accepts P s 0 = false)
  /\ (tuple_size <> 0 \/ accepts P s 0 = true ->
      exists j,
        begin P s = Returns {| idx := j |}
        /\ j <= tuple_size
        /\ (forall k, k < j -> accepts P s k = false)
        /\ (j < tuple_size -> accepts P s j = true)).
Proof.
  assert (Hgood : tuple_size <> 0 \/ accepts P s 0 = true ->
      exists j,
        begin P s = Returns {| idx := j |}
        /\ j <= tuple_size
        /\ (forall k, k < j -> accepts P s k = false)
        /\ (j < tuple_size -> accepts P s j = true)).
  { intros Hok. unfold begin, iterator_ctor. simpl andb.
    destruct (P s {| idx := 0 |}) eqn:HP0; simpl negb; cbv iota.
    - exists 0. repeat split; try lia. intros _. exact HP0.
    - assert (Hpos : 0 < tuple_size).
      { destruct Hok as [Hne | Hacc]; [lia|].
        unfold accepts in Hacc. congruence. }
      destruct (operator_incr_below P s Hpos)
        as (j & Hj & Hrange & Hskip & Hacc).
      exists j. repeat split; try lia; try assumption.
      intros k Hk. destruct (N.eq_dec k 0) as [->|Hne]; [exact HP0|].
      apply Hskip. lia. }
  split; [split|exact Hgood].
  - intros Hfail.
    destruct (N.eq_dec tuple_size 0) as [Hz|Hnz].
    + split; [assumption|].
      destruct (accepts P s 0) eqn:Hacc; [|reflexivity].
      destruct (Hgood (or_intror eq_refl)) as (j & Hj & _). congruence.
    + destruct (Hgood (or_introl Hnz)) as (j & Hj & _). congruence.
  - intros [Hz Hacc]. now apply begin_on_empty_tuple.
Qed.

Lemma range_for_returns {Ret : Type} (P : Predicate)
    (body : Ret -> iteratorbase -> Drivers -> Ret * Drivers) :
  forall (fuel : nat) (j : N) (acc : Ret) (s : Drivers),
    j <= tuple_size ->
    (N.to_nat (tuple_size - j) < fuel)%nat ->
    exists r,
      range_for fuel P body {| idx := j |} {| idx := tuple_size |} acc s
      = Returns r.
Proof.
  induction fuel as [|fuel IH]; intros j acc s Hj Hfuel; [lia|].
  simpl range_for. unfold iteratorbase_neqb, iteratorbase_eqb. simpl idx.
  destruct (N.eqb_spec j tuple_size) as [->|Hne]; simpl negb; cbv iota.
  - eexists. reflexivity.
  - assert (Hlt : j < tuple_size) by lia.
    destruct (body acc {| idx := j |} s) as [acc' s'].
    destruct (operator_incr_below P s' Hlt) as (j' & Hj' & Hrange & _).
    rewrite Hj'. cbn [bind]. apply IH; lia.
Qed.

(** X9.  [reduce] can fail the assertion in one way only: in [begin()], on
    an empty tuple whose predicate rejects index 0.  In every other case it
    returns, whatever the callback does to the drivers: walking the view never
    increments the end cursor. *)
Theorem reduce_fails_only_in_begin {Ret Args : Type} (P : Predicate)
    (f : Ret -> iteratorbase -> Args -> Drivers -> Ret * Drivers)
    (dflt : Ret) (args : Args) (s : Drivers) :
  (reduce P f dflt args s = AssertionFailed
   <-> tuple_size = 0 /\ accepts P s 0 = false)
  /\ (tuple_size <> 0 \/ accepts P s 0 = true ->
      exists r, reduce P f dflt args s = Returns r).
Proof.
  assert (Hgood : tuple_size <> 0 \/ accepts P s 0 = true ->
                  exists r, reduce P f dflt args s = Returns r).
  { intros Hok. unfold reduce.
    destruct (begin_first_match P s Hok) as (j & Hb & Hj & _).
    rewrite Hb, end_returns. cbn [bind].
    apply range_for_returns; lia. }
  split; [split|exact Hgood].
  - intros Hfail.
    destruct (N.eq_dec tuple_size 0) as [Hz|Hnz].
    + split; [assumption|].
      destruct (accepts P s 0) eqn:Hacc; [|reflexivity].
      destruct (Hgood (or_intror eq_refl)) as (r & Hr). congruence.
    + destruct (Hgood (or_introl Hnz)) as (r & Hr). congruence.
  - intros [Hz Hacc]. now apply reduce_on_empty_tuple.
Qed.

End MoreCursorProperties.

(** *** Folds, once more *)

Section MoreFoldProperties.
Import IODrivers Visit.
Context `{I : Instantiation}.
Local Open Scope N_scope.

(** X10.  On a tuple that is not empty (or whose index 0 the predicate
    accepts), and with a callback that does not change what the predicate
    answers, [reduce] returns the left fold of the callback over the slots
    the view selects, in ascending order, starting from [dflt]: [dflt] itself
    with the drivers untouched when the view selects nothing, [f(dflt, d0)]
    when it selects the one slot [d0]. *)
Theorem reduce_folds_selected_slots {Ret Args : Type} (P : Predicate)
    (f : Ret -> iteratorbase -> Args -> Drivers -> Ret * Drivers)
    (dflt : Ret) (args : Args) (s : Drivers) :
  preserves P (fun reduced d => f reduced d args) ->
  tuple_size <> 0 \/ accepts P s 0 = true ->
  reduce P f dflt args s
  = Returns (fold_cursors (fun reduced d => f reduced d args)
               (matching P s) dflt s)
  /\ (matching P s = [] -> reduce P f dflt args s = Returns (dflt, s))
  /\ (forall d0, matching P s = [d0] ->
        reduce P f dflt args s = Returns (f dflt {| idx := d0 |} args s)).
Proof.
  intros Hpres Hok.
  split; [now apply reduce_is_fold|].
  now apply reduce_empty_and_singleton.
Qed.

Section Probes.
Variable Args : Type.
Variable f : iteratorbase -> Args -> Drivers -> bool * Drivers.
Variable args : Args.

(** X11.  On a tuple that is not empty (or whose index 0 the predicate
    accepts), and with a probe that does not change what the predicate
    answers: without short-circuiting, [any] and [all] call the probe once on
    every slot the view selects, in ascending order, and return the
    disjunction and the conjunction of the results; with short-circuiting
    they return the same values, having called the probe on the slots up to
    the first [true] (for [any]) or the first [false] (for [all]) only. *)
Theorem any_all_call_selected_slots (P : Predicate) (s : Drivers) :
  probe_preserves P (fun d => f d args) ->
  tuple_size <> 0 \/ accepts P s 0 = true ->
  let every := probe_each (fun d => f d args) (matching P s) s in
  let upto b := probe_until b (fun d => f d args) (matching P s) s in
  called every = matching P s
  /\ any P f NO_SHORT_CIRCUIT args s
     = Returns (existsb id (results every), snd every)
  /\ all P f NO_SHORT_CIRCUIT args s
     = Returns (forallb id (results every), snd every)
  /\ any P f DO_SHORT_CIRCUIT args s
     = Returns (existsb id (results every), snd (upto true))
  /\ all P f DO_SHORT_CIRCUIT args s
     = Returns (forallb id (results every), snd (upto false))
  /\ (forall b, exists skipped, fst every = fst (upto b) ++ skipped).
Proof.
  intros Hf Hok. now apply any_all_evaluation.
Qed.

(** X12.  On a view that selects no slot of a tuple that is not empty (or
    whose index 0 the predicate accepts), [any] returns false and [all]
    returns true in either mode, and the drivers are as they were: the probe
    is not called. *)
Theorem any_all_of_nothing (P : Predicate) (mode : ShortCircuitType)
    (s : Drivers) :
  matching P s = [] ->
  tuple_size <> 0 \/ accepts P s 0 = true ->
  any P f mode args s = Returns (false, s)
  /\ all P f mode args s = Returns (true, s).
Proof.
  intros Hnone Hok. now apply any_all_on_empty_view.
Qed.

End Probes.

(** Two bodies that keep their accumulators related, and do the same to the
    drivers, give related results from the same cursor. *)
Lemma range_for_related {R1 R2 : Type} (Rel : R1 -> R2 -> Prop)
    (P : Predicate)
    (body1 : R1 -> iteratorbase -> Drivers -> R1 * Drivers)
    (body2 : R2 -> iteratorbase -> Drivers -> R2 * Drivers) :
  (forall a1 a2 d s, Rel a1 a2 ->
     Rel (fst (body1 a1 d s)) (fst (body2 a2 d s))
     /\ snd (body1 a1 d s) = snd (body2 a2 d s)) ->
  forall fuel it e a1 a2 s,
    Rel a1 a2 ->
    match range_for fuel P body1 it e a1 s,
          range_for fuel P body2 it e a2 s with
    | Returns r1, Returns r2 => Rel (fst r1) (fst r2) /\ snd r1 = snd r2
    | AssertionFailed, AssertionFailed => True
    | OutOfFuel, OutOfFuel => True
    | _, _ => False
    end.
Proof.
  intros Hstep. induction fuel as [|fuel IH]; intros it e a1 a2 s Hrel;
    simpl; [exact Logic.I|].
  destruct (iteratorbase_neqb it e); [|simpl; split; [assumption|reflexivity]].
  destruct (Hstep a1 a2 it s Hrel) as [Hrel' Hsame].
  destruct (body1 a1 it s) as [a1' s1], (body2 a2 it s) as [a2' s2].
  simpl in Hrel', Hsame. subst s2.
  destruct (operator_incr P s1 it) as [it'| |]; cbn [bind];
    [apply IH; assumption | exact Logic.I | exact Logic.I].
Qed.

Lemma reduce_related {R1 R2 Args : Type} (Rel : R1 -> R2 -> Prop)
    (P : Predicate)
    (f1 : R1 -> iteratorbase -> Args -> Drivers -> R1 * Drivers)
    (f2 : R2 -> iteratorbase -> Args -> Drivers -> R2 * Drivers)
    (d1 : R1) (d2 : R2) (args : Args) (s : Drivers) :
  (forall a1 a2 d s', Rel a1 a2 ->
     Rel (fst (f1 a1 d args s')) (fst (f2 a2 d args s'))
     /\ snd (f1 a1 d args s') = snd (f2 a2 d args s')) ->
  Rel d1 d2 ->
  match reduce P f1 d1 args s, reduce P f2 d2 args s with
  | Returns r1, Returns r2 => Rel (fst r1) (fst r2) /\ snd r1 = snd r2
  | AssertionFailed, AssertionFailed => True
  | OutOfFuel, OutOfFuel => True
  | _, _ => False
  end.
Proof.
  intros Hstep Hrel. unfold reduce.
  destruct (begin P s) as [b| |]; cbn [bind]; auto.
  rewrite end_returns. cbn [bind].
  apply (@range_for_related R1 R2 Rel P
           (fun reduced d => f1 reduced d args)
           (fun reduced d => f2 reduced d args) Hstep); assumption.
Qed.

(** X13.  [any] and [all] are dual, in either mode and on every view:
    [any(f)] is the negation of [all] of the negated probe, with the same
    calls made, the same drivers left behind, and the same failure if
    [begin()] fails. *)
Theorem any_is_not_all_not {Args : Type} (P : Predicate)
    (f : iteratorbase -> Args -> Drivers -> bool * Drivers)
    (mode : ShortCircuitType) (args : Args) (s : Drivers) :
  any P f mode args s = negate_result (all P (negated f) mode args s)
  /\ all P f mode args s = negate_result (any P (negated f) mode args s).
Proof.
  split.
  - pose proof (@reduce_related bool bool Args (fun a1 a2 => a1 = negb a2) P
                  (any_lambda f mode) (all_lambda (negated f) mode)
                  false true args s) as Hrel.
    unfold any, all, negate_result.
    destruct (reduce P (any_lambda f mode) false args s) as [[r1 s1]| |],
             (reduce P (all_lambda (negated f) mode) true args s)
               as [[r2 s2]| |];
      cbn [bind fst snd] in *;
      try reflexivity;
      try (exfalso; apply Hrel; [|reflexivity]);
      try (destruct Hrel as [-> ->]; [|reflexivity|reflexivity]);
      intros a1 a2 d s' ->; unfold any_lambda, all_lambda, negated;
      destruct mode, a2; simpl; destruct (f d args s') as [r s''];
      simpl; split; try reflexivity; destruct r; reflexivity.
  - pose proof (@reduce_related bool bool Args (fun a1 a2 => a1 = negb a2) P
                  (all_lambda f mode) (any_lambda (negated f) mode)
                  true false args s) as Hrel.
    unfold any, all, negate_result.
    destruct (reduce P (all_lambda f mode) true args s) as [[r1 s1]| |],
             (reduce P (any_lambda (negated f) mode) false args s)
               as [[r2 s2]| |];
      cbn [bind fst snd] in *;
      try reflexivity;
      try (exfalso; apply Hrel; [|reflexivity]);
      try (destruct Hrel as [-> ->]; [|reflexivity|reflexivity]);
      intros a1 a2 d s' ->; unfold any_lambda, all_lambda, negated;
      destruct mode, a2; simpl; destruct (f d args s') as [r s''];
      simpl; split; try reflexivity; destruct r; reflexivity.
Qed.

(** X14.  For a probe that leaves the drivers as they are, the short-circuit
    flag makes no difference to [any] and [all], on any view: the result,
    the drivers and a failure in [begin()] are the same in both modes. *)
Theorem short_circuit_is_unobservable_for_pure_probes {Args : Type}
    (P : Predicate)
    (f : iteratorbase -> Args -> Drivers -> bool * Drivers)
    (args : Args) (s : Drivers) :
  (forall d s', snd (f d args s') = s') ->
  any P f DO_SHORT_CIRCUIT args s = any P f NO_SHORT_CIRCUIT args s
  /\ all P f DO_SHORT_CIRCUIT args s = all P f NO_SHORT_CIRCUIT args s.
Proof.
  intros Hpure. split.
  - pose proof (@reduce_related bool bool Args eq P
                  (any_lambda f DO_SHORT_CIRCUIT)
                  (any_lambda f NO_SHORT_CIRCUIT) false false args s) as Hrel.
    unfold any.
    destruct (reduce P (any_lambda f DO_SHORT_CIRCUIT) false args s)
               as [[r1 s1]| |],
             (reduce P (any_lambda f NO_SHORT_CIRCUIT) false args s)
               as [[r2 s2]| |];
      cbn [fst snd] in *;
      try reflexivity;
      try (exfalso; apply Hrel; [|reflexivity]);
      try (destruct Hrel as [-> ->]; [|reflexivity|reflexivity]);
      intros a1 a2 d s' ->; unfold any_lambda;
      specialize (Hpure d s'); destruct (f d args s') as [r s''];
      simpl in *; subst s''; destruct a2, r; simpl; split; reflexivity.
  - pose proof (@reduce_related bool bool Args eq P
                  (all_lambda f DO_SHORT_CIRCUIT)
                  (all_lambda f NO_SHORT_CIRCUIT) true true args s) as Hrel.
    unfold all.
    destruct (reduce P (all_lambda f DO_SHORT_CIRCUIT) true args s)
               as [[r1 s1]| |],
             (reduce P (all_lambda f NO_SHORT_CIRCUIT) true args s)
               as [[r2 s2]| |];
      cbn [fst snd] in *;
      try reflexivity;
      try (exfalso; apply Hrel; [|reflexivity]);
      try (destruct Hrel as [-> ->]; [|reflexivity|reflexivity]);
      intros a1 a2 d s' ->; unfold all_lambda;
      specialize (Hpure d s'); destruct (f d args s') as [r s''];
      simpl in *; subst s''; destruct a2, r; simpl; split; reflexivity.
Qed.

End MoreFoldProperties.

(** *** Views as lists of slots *)

Section ViewProperties.
Import IODrivers Visit.
Context `{I : Instantiation}.
Local Open Scope N_scope.

Lemma fold_collect (l : list N) : forall (acc : list N) (s : Drivers),
  fold_cursors (fun reduced d => collect reduced d tt) l acc s
  = (acc ++ l, s).
Proof.
  induction l as [|i l IH]; intros acc s; simpl.
  - now rewrite app_nil_r.
  - rewrite IH. simpl. now rewrite <- app_assoc.
Qed.

Lemma filter_iota_sorted (p : N -> bool) (n : nat) : forall a : N,
  StronglySorted N.lt (List.filter p (iota n a)).
Proof.
  induction n as [|n IH]; intros a; simpl; [constructor|].
  destruct (p a); [|apply IH].
  constructor; [apply IH|].
  apply Forall_forall. intros k Hk.
  apply filter_In in Hk as [Hk _]. apply In_iota in Hk. lia.
Qed.

(** X15.  Walking a view with [reduce] and noting the index of each cursor
    handed to the callback gives exactly the slots below [tuple_size] that
    the predicate accepts, each once and in strictly ascending order (on a
    tuple that is not empty, or whose index 0 the predicate accepts). *)
Theorem reduce_visits_accepted_slots_in_order (P : Predicate) (s : Drivers) :
  tuple_size <> 0 \/ accepts P s 0 = true ->
  exists visited,
    reduce P collect [] tt s = Returns (visited, s)
    /\ StronglySorted N.lt visited
    /\ (forall i, In i visited <-> i < tuple_size /\ accepts P s i = true).
Proof.
  intros Hok. exists (matching P s).
  split; [|split].
  - rewrite reduce_is_fold; [|intros acc d s' self; reflexivity|exact Hok].
    now rewrite fold_collect.
  - apply filter_iota_sorted.
  - intros i. apply In_matching.
Qed.

(** X16.  [empty()] is true exactly when the view selects no slot (on a
    tuple that is not empty, or whose index 0 the predicate accepts); the
    drivers are only read. *)
Theorem empty_iff_nothing_selected (P : Predicate) (s : Drivers) :
  tuple_size <> 0 \/ accepts P s 0 = true ->
  exists b,
    empty P s = Returns b
    /\ (b = true <-> matching P s = [])
    /\ (b = true <-> forall i, i < tuple_size -> accepts P s i = false).
Proof.
  intros Hok.
  destruct (begin_first_match P s Hok) as (j & Hb & Hj & Hacc & Hall).
  unfold empty. rewrite Hb, end_returns. cbn [bind].
  unfold iteratorbase_eqb. simpl idx.
  exists (j =? tuple_size).
  assert (Hiff : (j =? tuple_size) = true <-> matching P s = []).
  { rewrite Hall, N.eqb_eq. split.
    - intros ->. unfold matching_from. now rewrite N.sub_diag.
    - intros Hnil. destruct (N.eq_dec j tuple_size) as [|Hne]; [assumption|].
      rewrite matching_from_cons in Hnil by (try apply Hacc; lia).
      discriminate Hnil. }
  split; [reflexivity|]. split; [exact Hiff|].
  rewrite Hiff. split.
  - intros Hnil i Hi. destruct (accepts P s i) eqn:Hai; [|reflexivity].
    assert (Hin : In i (matching P s)) by (apply In_matching; now split).
    rewrite Hnil in Hin. destruct Hin.
  - intros Hnone. destruct (matching P s) as [|i l] eqn:Hm; [reflexivity|].
    assert (Hin : In i (matching P s)) by (rewrite Hm; now left).
    apply In_matching in Hin as [Hi Hai]. rewrite (Hnone i Hi) in Hai.
    discriminate Hai.
Qed.

Lemma length_iota (n : nat) : forall a : N, List.length (iota n a) = n.
Proof. induction n as [|n IH]; intros a; simpl; [reflexivity|now rewrite IH]. Qed.

Lemma matching_length_le (P : Predicate) (s : Drivers) :
  (List.length (matching P s) <= N.to_nat tuple_size)%nat.
Proof.
  unfold matching, slots.
  rewrite <- (length_iota (N.to_nat tuple_size) 0) at 2.
  apply filter_length_le.
Qed.

Lemma nth_iota (n : nat) : forall (k : nat) (a d : N),
  (k < n)%nat -> nth k (iota n a) d = a + N.of_nat k.
Proof.
  induction n as [|n IH]; intros k a d Hk; [lia|].
  destruct k as [|k]; simpl.
  - lia.
  - rewrite IH by lia. lia.
Qed.

(** The loop of [operator+], started on a slot the view selects (or on the
    end): it walks down the list of selected slots. *)
Lemma plus_loop_walks_matching (P : Predicate) (s : Drivers) :
  forall (add : nat) (j : N),
    j <= tuple_size ->
    (j < tuple_size -> accepts P s j = true) ->
    plus_loop add P s {| idx := j |}
    = match Nat.compare add (List.length (matching_from P s j)) with
      | Lt => Returns {| idx := nth add (matching_from P s j) 0 |}
      | Eq => Returns {| idx := tuple_size |}
      | Gt => AssertionFailed
      end.
Proof.
  induction add as [|add IH]; intros j Hj Hacc.
  - simpl plus_loop.
    destruct (N.eq_dec j tuple_size) as [->|Hne].
    + unfold matching_from. rewrite N.sub_diag. reflexivity.
    + rewrite matching_from_cons by (try apply Hacc; lia). reflexivity.
  - simpl plus_loop.
    destruct (N.eq_dec j tuple_size) as [->|Hne].
    + rewrite operator_incr_at_end by reflexivity.
      unfold matching_from. rewrite N.sub_diag. reflexivity.
    + assert (Hlt : j < tuple_size) by lia.
      destruct (operator_incr_below P s Hlt)
        as (j' & Hj' & Hrange & Hskip & Hacc').
      rewrite Hj'. cbn [bind]. rewrite IH by (try assumption; lia).
      rewrite (matching_from_cons P s Hlt (Hacc Hlt)).
      rewrite (@matching_from_skip _ P s (j + 1) j') by
        (try lia; intros k Hk; apply Hskip; lia).
      reflexivity.
Qed.

(** X17.  [view[k]] is [begin() + k]: it returns the cursor of the [k]-th
    slot the view selects (counting from 0), the end cursor when the view
    selects exactly [k] slots, and fails the assertion when it selects fewer
    (on a tuple that is not empty, or whose index 0 the predicate accepts).
    On the whole container, [ioDrivers[k]] is the cursor with index [k] for
    [k] up to [tuple_size], and fails the assertion beyond. *)
Theorem index_is_kth_selected_slot (P : Predicate) (k : N) (s : Drivers) :
  tuple_size <> 0 \/ accepts P s 0 = true ->
  iterinfo_index P k s
  = match Nat.compare (N.to_nat k) (List.length (matching P s)) with
    | Lt => Returns {| idx := nth (N.to_nat k) (matching P s) 0 |}
    | Eq => Returns {| idx := tuple_size |}
    | Gt => AssertionFailed
    end
  /\ IODrivers_index k s
     = if k <=? tuple_size then Returns {| idx := k |} else AssertionFailed.
Proof.
  intros Hok. split.
  - destruct (begin_first_match P s Hok) as (j & Hb & Hj & Hacc & Hall).
    unfold iterinfo_index, operator_plus. rewrite Hb. cbn [bind].
    rewrite plus_loop_walks_matching by assumption. now rewrite Hall.
  - assert (Hiter : tuple_size <> 0 \/ accepts iter s 0 = true)
      by (right; reflexivity).
    destruct (begin_first_match iter s Hiter) as (j & Hb & Hj & Hacc & Hall).
    unfold IODrivers_index, iterinfo_index, operator_plus.
    rewrite Hb. cbn [bind].
    rewrite plus_loop_walks_matching by assumption.
    rewrite <- Hall, matching_iter. unfold slots. rewrite length_iota.
    destruct (Nat.compare_spec (N.to_nat k) (N.to_nat tuple_size)) as [He|Hl|Hg];
      destruct (N.leb_spec k tuple_size); try lia.
    + f_equal. f_equal. lia.
    + rewrite nth_iota by lia. f_equal. f_equal. lia.
    + reflexivity.
Qed.

End ViewProperties.

(** *** Counting *)

Section LengthProperties.
Import IODrivers Visit.
Context `{I : Instantiation} {IT : IntT}.
Local Open Scope N_scope.

Lemma size_of_int_small (k : nat) :
  N.of_nat k <= SIZE_MAX -> size_of_int (Z.of_nat k) = N.of_nat k.
Proof.
  intros Hk. unfold size_of_int. rewrite Z.mod_small by lia. lia.
Qed.

Lemma int_of_size_small (n : N) :
  n <= INT_MAX -> int_of_size n = Z.of_N n.
Proof.
  intros Hn. unfold int_of_size. cbv zeta.
  rewrite Z.mod_small by lia.
  destruct (Z.leb_spec (Z.of_N n) (Z.of_N INT_MAX)); [reflexivity|lia].
Qed.

Lemma fold_cursors_cons {Ret : Type}
    (body : Ret -> iteratorbase -> Drivers -> Ret * Drivers)
    (i : N) (l : list N) (acc : Ret) (s : Drivers) :
  fold_cursors body (i :: l) acc s
  = fold_cursors body l (fst (body acc {| idx := i |} s))
      (snd (body acc {| idx := i |} s)).
Proof. simpl. now destruct (body acc {| idx := i |} s). Qed.

Lemma length_lambda_counts (k : nat) (d : iteratorbase) (s : Drivers) :
  tuple_size <= INT_MAX ->
  N.of_nat k < tuple_size ->
  length_lambda (Z.of_nat k) d tt s = (Z.of_nat (S k), s).
Proof.
  pose proof tuple_size_fits as Hfit.
  intros Hint Hk. unfold length_lambda.
  rewrite size_of_int_small by lia.
  rewrite size_incr_below by lia.
  rewrite int_of_size_small by lia.
  f_equal. lia.
Qed.

Lemma fold_length (s : Drivers) (l : list N) : forall k : nat,
  tuple_size <= INT_MAX ->
  (k + List.length l <= N.to_nat tuple_size)%nat ->
  fold_cursors (fun reduced d => length_lambda reduced d tt) l (Z.of_nat k) s
  = (Z.of_nat (k + List.length l), s).
Proof.
  induction l as [|i l IH]; intros k Hint Hk.
  - simpl. now rewrite Nat.add_0_r.
  - cbn [List.length] in Hk. rewrite fold_cursors_cons.
    rewrite length_lambda_counts by (try assumption; lia).
    cbn [fst snd]. rewrite IH by (try assumption; lia).
    cbn [List.length]. f_equal. f_equal. lia.
Qed.

Lemma length_counts (P : Predicate) (s : Drivers) :
  tuple_size <= INT_MAX ->
  tuple_size <> 0 \/ accepts P s 0 = true ->
  length P s = Returns (N.of_nat (List.length (matching P s)), s).
Proof.
  intros Hint Hok. unfold length.
  rewrite reduce_is_fold; [|intros acc d s' self; reflexivity|exact Hok].
  cbn [bind].
  pose proof (matching_length_le P s) as Hle.
  pose proof tuple_size_fits as Hfit.
  change 0%Z with (Z.of_nat 0).
  rewrite fold_length by (try assumption; simpl; lia).
  cbn [fst snd]. rewrite size_of_int_small by lia. reflexivity.
Qed.

(** X18.  When the size of the tuple fits in an [int], [length()] returns
    the number of slots the view selects and leaves the drivers alone, and
    [empty()] is true exactly when that number is 0 (on a tuple that is not
    empty, or whose index 0 the predicate accepts). *)
Theorem length_counts_selected_slots (P : Predicate) (s : Drivers) :
  tuple_size <= INT_MAX ->
  tuple_size <> 0 \/ accepts P s 0 = true ->
  length P s = Returns (N.of_nat (List.length (matching P s)), s)
  /\ N.of_nat (List.length (matching P s)) <= tuple_size
  /\ empty P s = Returns (N.of_nat (List.length (matching P s)) =? 0).
Proof.
  intros Hint Hok. split; [now apply length_counts|].
  pose proof (matching_length_le P s) as Hle.
  split; [lia|].
  destruct (begin_first_match P s Hok) as (j & Hb & Hj & Hacc & Hall).
  unfold empty. rewrite Hb, end_returns. cbn [bind].
  unfold iteratorbase_eqb. simpl idx. f_equal.
  rewrite Hall.
  destruct (N.eqb_spec j tuple_size) as [->|Hne].
  - unfold matching_from. rewrite N.sub_diag. reflexivity.
  - rewrite matching_from_cons by (try apply Hacc; lia).
    simpl List.length. symmetry. apply N.eqb_neq. lia.
Qed.

Lemma filter_union_intersection (p q : N -> bool) (l : list N) :
  (List.length (List.filter (fun i => p i || q i) l)
   + List.length (List.filter (fun i => p i && q i) l)
   = List.length (List.filter p l) + List.length (List.filter q l))%nat.
Proof.
  induction l as [|i l IH]; simpl; [reflexivity|].
  destruct (p i), (q i); simpl; lia.
Qed.

Lemma filter_length_mono (p q : N -> bool) (l : list N) :
  (forall i, p i = true -> q i = true) ->
  (List.length (List.filter p l) <= List.length (List.filter q l))%nat.
Proof.
  intros Himp. induction l as [|i l IH]; simpl; [lia|].
  destruct (p i) eqn:Hp.
  - rewrite (Himp i Hp). simpl. lia.
  - destruct (q i); simpl; lia.
Qed.

(** X19.  The lengths of two views of a tuple that is not empty, of their
    union and of their intersection are related as the sizes of sets are:
    the union and the intersection together count as many slots as the two
    views together, and the intersection is no longer than either view, which
    is no longer than the union, which is no longer than the tuple. *)
Theorem lengths_of_union_and_intersection (A B : Predicate) (s : Drivers) :
  tuple_size <= INT_MAX ->
  tuple_size <> 0 ->
  exists a b u i,
    length A s = Returns (a, s)
    /\ length B s = Returns (b, s)
    /\ length (unionWith A B) s = Returns (u, s)
    /\ length (iterinfo_filter A B) s = Returns (i, s)
    /\ u + i = a + b
    /\ i <= a /\ i <= b /\ a <= u /\ b <= u /\ u <= tuple_size.
Proof.
  intros Hint Hnz.
  exists (N.of_nat (List.length (matching A s))),
         (N.of_nat (List.length (matching B s))),
         (N.of_nat (List.length (matching (unionWith A B) s))),
         (N.of_nat (List.length (matching (iterinfo_filter A B) s))).
  repeat (split; [apply length_counts; [assumption | now left]|]).
  pose proof (filter_union_intersection (accepts A s) (accepts B s) slots)
    as Hsum.
  pose proof (matching_length_le (unionWith A B) s) as Hle.
  assert (Hia : (List.length (matching (iterinfo_filter A B) s)
                 <= List.length (matching A s))%nat).
  { apply filter_length_mono. intros k.
    unfold accepts, iterinfo_filter, Intersection.
    intros Hk. now apply andb_true_iff in Hk. }
  assert (Hib : (List.length (matching (iterinfo_filter A B) s)
                 <= List.length (matching B s))%nat).
  { apply filter_length_mono. intros k.
    unfold accepts, iterinfo_filter, Intersection.
    intros Hk. now apply andb_true_iff in Hk. }
  assert (Hau : (List.length (matching A s)
                 <= List.length (matching (unionWith A B) s))%nat).
  { apply filter_length_mono. intros k.
    unfold accepts, unionWith, Union. intros Hk. now rewrite Hk. }
  assert (Hbu : (List.length (matching B s)
                 <= List.length (matching (unionWith A B) s))%nat).
  { apply filter_length_mono. intros k.
    unfold accepts, unionWith, Union. intros Hk. rewrite Hk.
    apply orb_true_r. }
  unfold matching in *.
  unfold accepts, unionWith, iterinfo_filter, Union, Intersection in *.
  repeat split; lia.
Qed.

End LengthProperties.

(** *** The predicate algebra, once more *)

Section MorePredicateAlgebra.
Import IODrivers Visit.
Context `{I : Instantiation}.
Local Open Scope N_scope.

Lemma matching_ext (P Q : Predicate) (s : Drivers) :
  (forall self, P s self = Q s self) -> matching P s = matching Q s.
Proof.
  intros Hsame. unfold matching. apply filter_ext.
  intros i. unfold accepts. apply Hsame.
Qed.

Lemma filter_then_filter (p q : N -> bool) (l : list N) :
  List.filter (fun i => p i && q i) l = List.filter q (List.filter p l).
Proof.
  induction l as [|i l IH]; simpl; [reflexivity|].
  destruct (p i); simpl; [|exact IH].
  destruct (q i); [now rewrite IH | exact IH].
Qed.

(** X20.  Filtering a view by another view selects the slots both select:
    it is the first view's list of slots filtered by the second predicate.
    Intersection is commutative and associative, union is associative, and
    the unfiltered view is neutral for intersection; views related in this
    way select the same slots and give the same [reduce]. *)
Theorem intersection_and_union_laws (A B C : Predicate) (s : Drivers) :
  matching (iterinfo_filter A B) s
  = List.filter (accepts B s) (matching A s)
  /\ (forall i, In i (matching (iterinfo_filter A B) s)
                <-> In i (matching A s) /\ In i (matching B s))
  /\ (forall i, In i (matching (unionWith A B) s)
                <-> In i (matching A s) \/ In i (matching B s))
  /\ matching (iterinfo_filter A B) s = matching (iterinfo_filter B A) s
  /\ matching (iterinfo_filter (iterinfo_filter A B) C) s
     = matching (iterinfo_filter A (iterinfo_filter B C)) s
  /\ matching (unionWith (unionWith A B) C) s
     = matching (unionWith A (unionWith B C)) s
  /\ matching (iterinfo_filter iter A) s = matching A s
  /\ (forall (Ret Args : Type)
             (f : Ret -> iteratorbase -> Args -> Drivers -> Ret * Drivers)
             (dflt : Ret) (args : Args),
        reduce (iterinfo_filter A B) f dflt args s
        = reduce (iterinfo_filter B A) f dflt args s
        /\ reduce (iterinfo_filter (iterinfo_filter A B) C) f dflt args s
           = reduce (iterinfo_filter A (iterinfo_filter B C)) f dflt args s
        /\ reduce (unionWith (unionWith A B) C) f dflt args s
           = reduce (unionWith A (unionWith B C)) f dflt args s
        /\ reduce (iterinfo_filter iter A) f dflt args s
           = reduce A f dflt args s).
Proof.
  split.
  { unfold matching. rewrite <- filter_then_filter.
    apply filter_ext. intros i. reflexivity. }
  split.
  { intros i. rewrite !In_matching.
    unfold accepts, iterinfo_filter, Intersection.
    rewrite andb_true_iff. tauto. }
  split.
  { intros i. rewrite !In_matching.
    unfold accepts, unionWith, Union.
    rewrite orb_true_iff. tauto. }
  split.
  { apply matching_ext. intros self.
    unfold iterinfo_filter, Intersection. apply andb_comm. }
  split.
  { apply matching_ext. intros self.
    unfold iterinfo_filter, Intersection. symmetry. apply andb_assoc. }
  split.
  { apply matching_ext. intros self.
    unfold unionWith, Union. symmetry. apply orb_assoc. }
  split.
  { apply matching_ext. intros self. reflexivity. }
  intros Ret Args f dflt args.
  split; [|split; [|split]]; apply reduce_ext; intros s' self.
  - unfold iterinfo_filter, Intersection. apply andb_comm.
  - unfold iterinfo_filter, Intersection. symmetry. apply andb_assoc.
  - unfold unionWith, Union. symmetry. apply orb_assoc.
  - reflexivity.
Qed.

End MorePredicateAlgebra.

(** *** [apply] and the commands built on it *)

Section ApplyProperties.
Import IODrivers Visit.
Context `{I : Instantiation}.
Local Open Scope N_scope.

Lemma fold_apply (g : iteratorbase -> Drivers -> Drivers) (l : list N) :
  forall s,
    fold_cursors (fun (_ : unit) d s' => (tt, g d s')) l tt s
    = (tt, apply_each g l s).
Proof. induction l as [|i l IH]; intros s; simpl; [reflexivity|apply IH]. Qed.

Lemma apply_is_each {Args : Type} (P : Predicate)
    (f : iteratorbase -> Args -> Drivers -> Drivers)
    (args : Args) (s : Drivers) :
  action_preserves P (fun d => f d args) ->
  tuple_size <> 0 \/ accepts P s 0 = true ->
  apply P f args s
  = Returns (apply_each (fun d => f d args) (matching P s) s).
Proof.
  intros Hpres Hok. unfold apply.
  destruct (begin_first_match P s Hok) as (j & Hb & Hj & Hacc & Hall).
  rewrite Hb, end_returns. cbn [bind].
  rewrite range_for_is_fold; try assumption; try lia.
  - cbn [bind]. rewrite <- Hall, fold_apply. reflexivity.
  - intros acc d s' self. apply Hpres.
Qed.

(** X21.  [apply(f, args...)] calls [f] once on every slot the view selects,
    in ascending order, each call seeing the drivers as the call before left
    them; on a view that selects nothing it returns with the drivers
    untouched (on a tuple that is not empty, or whose index 0 the predicate
    accepts, and for an [f] that does not change what the predicate
    answers). *)
Theorem apply_calls_selected_slots {Args : Type} (P : Predicate)
    (f : iteratorbase -> Args -> Drivers -> Drivers)
    (args : Args) (s : Drivers) :
  action_preserves P (fun d => f d args) ->
  tuple_size <> 0 \/ accepts P s 0 = true ->
  apply P f args s
  = Returns (apply_each (fun d => f d args) (matching P s) s)
  /\ (matching P s = [] -> apply P f args s = Returns s).
Proof.
  intros Hpres Hok. rewrite (@apply_is_each Args P f args s Hpres Hok).
  split; [reflexivity|]. intros ->. reflexivity.
Qed.

Section Commands.
Context {A : Actuators I}.

(** X22.  [lockAllAxes()] and [unlockAllAxes()] always return: they call
    the drivers' own [lockAxis()] (respectively [unlockAxis()]), reached
    through [tupleCallOnIndex], on every slot of the tuple, from slot 0 up,
    once each, each call on the drivers as the call before left them; on an
    empty tuple they do nothing. *)
Theorem lock_and_unlock_reach_every_slot (s : Drivers) :
  lockAllAxes s
  = Returns (apply_each (fun d s' => tupleCallOnIndex_LockAxis s' (idx d))
               slots s)
  /\ unlockAllAxes s
     = Returns (apply_each (fun d s' => tupleCallOnIndex_UnlockAxis s' (idx d))
                  slots s)
  /\ (tuple_size = 0 ->
      lockAllAxes s = Returns s /\ unlockAllAxes s = Returns s).
Proof.
  assert (Hok : tuple_size <> 0 \/ accepts iter s 0 = true)
    by (right; reflexivity).
  assert (Hlock : lockAllAxes s
                  = Returns (apply_each
                               (fun d s' => tupleCallOnIndex_LockAxis s' (idx d))
                               slots s)).
  { unfold lockAllAxes. rewrite apply_is_each; try assumption.
    - now rewrite matching_iter.
    - intros d s' self. reflexivity. }
  assert (Hunlock : unlockAllAxes s
                    = Returns (apply_each
                                 (fun d s' =>
                                    tupleCallOnIndex_UnlockAxis s' (idx d))
                                 slots s)).
  { unfold unlockAllAxes. rewrite apply_is_each; try assumption.
    - now rewrite matching_iter.
    - intros d s' self. reflexivity. }
  split; [exact Hlock|]. split; [exact Hunlock|].
  intros Hz. rewrite Hlock, Hunlock. unfold slots. rewrite Hz.
  split; reflexivity.
Qed.

(** X23.  On a tuple that is not empty, whose drivers do not change kind
    when given a duty cycle or a target temperature: [setFanDutyCycle(duty)]
    gives the duty cycle to the fans, [setHotendTemp(temp)] gives the
    temperature to the hotends and [setBedTemp(temp)] to the heated beds,
    each slot of that kind once, in ascending order, and no other slot is
    called. *)
Theorem setters_reach_their_kind_only (duty : float) (temp : CelciusType)
    (s : Drivers) :
  tuple_size <> 0 ->
  (forall s' i j z,
     tupleCallOnIndex_IsFan (tupleCallOnIndex_SetFanDutyCycle s' i z) j
     = tupleCallOnIndex_IsFan s' j) ->
  (forall s' i j z,
     tupleCallOnIndex_IsHotend (tupleCallOnIndex_SetTargetTemperature s' i z) j
     = tupleCallOnIndex_IsHotend s' j) ->
  (forall s' i j z,
     tupleCallOnIndex_IsHeatedBed
       (tupleCallOnIndex_SetTargetTemperature s' i z) j
     = tupleCallOnIndex_IsHeatedBed s' j) ->
  setFanDutyCycle duty s
  = Returns (apply_each (fun d => iteratorbase_setFanDutyCycle d duty)
               (matching fans s) s)
  /\ setHotendTemp temp s
     = Returns (apply_each (fun d => setTargetTemperature d temp)
                  (matching hotends s) s)
  /\ setBedTemp temp s
     = Returns (apply_each (fun d => setTargetTemperature d temp)
                  (matching heatedBeds s) s)
  /\ (forall i, In i (matching fans s)
                <-> i < tuple_size /\ tupleCallOnIndex_IsFan s i = true)
  /\ (forall i, In i (matching hotends s)
                <-> i < tuple_size /\ tupleCallOnIndex_IsHotend s i = true)
  /\ (forall i, In i (matching heatedBeds s)
                <-> i < tuple_size /\ tupleCallOnIndex_IsHeatedBed s i = true).
Proof.
  intros Hnz Hfan Hhot Hbed.
  split; [|split; [|split; [|split; [|split]]]].
  - unfold setFanDutyCycle. rewrite apply_is_each; [reflexivity| |now left].
    intros d s' self. apply Hfan.
  - unfold setHotendTemp. rewrite apply_is_each; [reflexivity| |now left].
    intros d s' self. apply Hhot.
  - unfold setBedTemp. rewrite apply_is_each; [reflexivity| |now left].
    intros d s' self. apply Hbed.
  - intros i. apply In_matching.
  - intros i. apply In_matching.
  - intros i. apply In_matching.
Qed.

End Commands.

End ApplyProperties.

(** *** Ties in [peekNextEvent] *)

Section TieBreak.
Import IODrivers Visit.
Context `{I : Instantiation}.
Local Open Scope N_scope.

Local Abbreviation peek' s i := (tupleCallOnIndex_PeekNextEvent s i).
Local Abbreviation peek_body' :=
  (fun reduced d => peekNextEvent_step reduced d tt).

Lemma fold_peek_first_wins (s : Drivers) (l : list N) :
  forall acc : iteratorbase * OutputEvent,
    let r := fst (fold_cursors peek_body' l acc s) in
    isNull (snd r) = false ->
    r = acc
    \/ exists l1 k l2,
         l = l1 ++ k :: l2
         /\ r = ({| idx := k |}, peek' s k)
         /\ (forall i, In i l1 ->
               isNull (peek' s i) = true
               \/ (time (peek' s k) < time (peek' s i))%Z)
         /\ (isNull (snd acc) = false ->
             (time (peek' s k) < time (snd acc))%Z).
Proof.
  induction l as [|i l IH]; intros acc; cbn zeta.
  - intros _. now left.
  - rewrite fold_peek_cons, peekNextEvent_step_cases. cbn zeta. simpl idx.
    intros Hr.
    destruct (isNull (snd acc)) eqn:Hacc.
    + (* the running best is null: slot [i] replaces it *)
      destruct (IH _ Hr) as [Hsame | (l1 & k & l2 & Hl & Hk & Hbefore & Hlt)].
      * right. exists [], i, l. repeat split; try assumption.
        -- intros j [].
        -- intros Habs. discriminate Habs.
      * right. exists (i :: l1), k, l2. simpl snd in Hlt.
        repeat split.
        -- now rewrite Hl.
        -- exact Hk.
        -- intros j [<-|Hj]; [|now apply Hbefore].
           destruct (isNull (peek' s i)) eqn:Hi; [now left|].
           right. now apply Hlt.
        -- intros Habs. discriminate Habs.
    + destruct (isNull (peek' s i)) eqn:Hcur.
      * (* nothing pending on slot [i]: the running best stays *)
        destruct (IH _ Hr) as [Hsame | (l1 & k & l2 & Hl & Hk & Hbefore & Hlt)].
        -- now left.
        -- right. exists (i :: l1), k, l2. repeat split.
           ++ now rewrite Hl.
           ++ exact Hk.
           ++ intros j [<-|Hj]; [now left | now apply Hbefore].
           ++ intros _. exact (Hlt Hacc).
      * destruct (Z.ltb_spec (time (peek' s i)) (time (snd acc))) as [Hlt|Hge].
        -- (* strictly earlier: slot [i] replaces the running best *)
           destruct (IH _ Hr)
             as [Hsame | (l1 & k & l2 & Hl & Hk & Hbefore & Hlt')].
           ++ right. exists [], i, l. repeat split; try assumption.
              ** intros j [].
              ** intros _. exact Hlt.
           ++ right. exists (i :: l1), k, l2. simpl snd in Hlt'.
              specialize (Hlt' Hcur).
              repeat split.
              ** now rewrite Hl.
              ** exact Hk.
              ** intros j [<-|Hj]; [now right | now apply Hbefore].
              ** intros _. lia.
        -- (* not earlier: the running best stays, also on a tie *)
           destruct (IH _ Hr)
             as [Hsame | (l1 & k & l2 & Hl & Hk & Hbefore & Hlt')].
           ++ now left.
           ++ right. exists (i :: l1), k, l2. specialize (Hlt' Hacc).
              repeat split.
              ** now rewrite Hl.
              ** exact Hk.
              ** intros j [<-|Hj]; [right; lia | now apply Hbefore].
              ** intros _. exact Hlt'.
Qed.

Lemma iota_before (l1 l2 : list N) (k : N) : forall (n : nat) (a : N),
  iota n a = l1 ++ k :: l2 ->
  forall i, a <= i < k -> In i l1.
Proof.
  induction l1 as [|x l1 IH]; intros n a Hsplit i Hi.
  - destruct n as [|n]; simpl in Hsplit; [discriminate|].
    inversion Hsplit; subst. lia.
  - destruct n as [|n]; simpl in Hsplit; [discriminate|].
    inversion Hsplit; subst.
    destruct (N.eq_dec i x) as [->|Hne]; [now left|].
    right. apply (IH n (x + 1)); [assumption | lia].
Qed.

(** X24.  When several devices have the earliest pending time,
    [peekNextEvent()] returns the one with the lowest index: every device
    before the returned cursor has nothing pending or a strictly later
    event. *)
Theorem peekNextEvent_first_of_ties_wins (s : Drivers) (it : iteratorbase)
    (e : OutputEvent) :
  peekNextEvent s = Returns ((it, e), s) ->
  isNull e = false ->
  forall i, i < idx it ->
    isNull (peek' s i) = true \/ (time e < time (peek' s i))%Z.
Proof.
  rewrite peekNextEvent_is_fold. intros Hrun He i Hi.
  pose proof (fold_peek_first_wins s slots
                ({| idx := tuple_size |}, OutputEvent_ctor)) as Hwin.
  cbn zeta in Hwin.
  inversion Hrun as [Hfold]. rewrite Hfold in Hwin. simpl snd in Hwin.
  destruct (Hwin He) as [Hinit | (l1 & k & l2 & Hl & Hk & Hbefore & _)].
  - inversion Hinit; subst.
    rewrite OutputEvent_ctor_isNull in He. discriminate He.
  - inversion Hk; subst. simpl idx in Hi.
    apply Hbefore. apply (@iota_before l1 l2 k (N.to_nat tuple_size) 0).
    + exact Hl.
    + lia.
Qed.

End TieBreak.

(** *** The further properties at work on the two machines *)

Section OnTheBench.
Import IODrivers Visit Bench.
Local Open Scope N_scope.
#[local] Existing Instance Machine.header.

Lemma kind_nth_update (g : Device -> Device) :
  (forall d, kind (g d) = kind d) ->
  forall (s : list Device) (i j : nat),
    kind (nth j (update s i g) spare) = kind (nth j s spare).
Proof.
  intros Hg. induction s as [|x s IH]; intros i j; [reflexivity|].
  destruct i as [|i], j as [|j]; simpl; auto.
Qed.

Lemma kind_after_idle (s : list Device) (i j : N) :
  kind (at_slot (snd (@tupleCallOnIndex_OnIdleCpu bench5 s i tt)) j)
  = kind (at_slot s j).
Proof.
  simpl. destruct (idle (at_slot s i)); simpl; [reflexivity|].
  unfold at_slot. now apply kind_nth_update.
Qed.

Lemma heaters_after_idle :
  @probe_preserves bench5 (@heaters bench5)
    (fun d => @GenericOnIdleCpu bench5 d tt).
Proof.
  intros d s self.
  unfold heaters, unionWith, Union, hotends, heatedBeds, filter,
    GenericIsHotend, GenericIsHeatedBed, isHotend, isHeatedBed,
    GenericOnIdleCpu, iteratorbase_onIdleCpu.
  cbn [tupleCallOnIndex_IsHotend tupleCallOnIndex_IsHeatedBed bench5 bench].
  now rewrite kind_after_idle.
Qed.

Lemma heaters_after_tally :
  @preserves bench5 nat (@heaters bench5)
    (fun reduced d => idleTally reduced d tt).
Proof.
  intros acc d s self. unfold idleTally.
  pose proof (heaters_after_idle d s self) as Hsame.
  destruct (@GenericOnIdleCpu bench5 d tt s) as [r s']. exact Hsame.
Qed.

Lemma rig_is_not_empty : @tuple_size bench5 <> 0.
Proof. discriminate. Qed.

Lemma increment_finds_next_accepted_witness :
  1 < 3
  /\ exists it',
       @operator_incr Machine.machine3 (@fans Machine.machine3)
         Machine.printer {| idx := 1 |} = Returns it'
       /\ idx it' = 3.
Proof.
  split; [reflexivity|].
  destruct (@increment_finds_next_accepted Machine.machine3
              (@fans Machine.machine3) Machine.printer {| idx := 1 |}
              eq_refl) as (it' & Hrun & Hrange & Hskip & Hacc).
  exists it'. split; [exact Hrun|].
  vm_compute in Hrun. inversion Hrun. reflexivity.
Defined.

Lemma increment_asserts_exactly_at_end_witness :
  7 <= 4294967295
  /\ (@operator_incr Machine.machine3 (@fans Machine.machine3)
        Machine.printer {| idx := 7 |} = AssertionFailed <-> 7 = 3)
  /\ @operator_incr Machine.machine3 (@NoPredicate Machine.machine3)
       Machine.printer {| idx := 7 |} = Returns {| idx := 8 |}.
Proof.
  assert (Hfit : 7 <= 4294967295) by (intros Hgt; discriminate Hgt).
  destruct (@increment_asserts_exactly_at_end Machine.machine3
              (@fans Machine.machine3) Machine.printer {| idx := 7 |} Hfit)
    as (Hiff & _ & Hplain).
  split; [exact Hfit|]. split; [exact Hiff|].
  apply Hplain. discriminate.
Defined.

Lemma reduce_folds_selected_slots_witness :
  @preserves bench5 nat (@heaters bench5)
    (fun reduced d => idleTally reduced d tt)
  /\ (@tuple_size bench5 <> 0 \/ @accepts bench5 (@heaters bench5) rig 0 = true)
  /\ exists s',
       @reduce bench5 nat unit (@heaters bench5) idleTally 0%nat tt rig
       = Returns (1%nat, s')
       /\ map idle s' = [0; 0; 0; 3; 0]%nat.
Proof.
  split; [exact heaters_after_tally|].
  split; [left; exact rig_is_not_empty|].
  destruct (@reduce_folds_selected_slots bench5 nat unit (@heaters bench5)
              idleTally 0%nat tt rig heaters_after_tally
              (or_introl rig_is_not_empty)) as (Hfold & _).
  eexists. rewrite Hfold. vm_compute. split; reflexivity.
Defined.

Lemma any_all_call_selected_slots_witness :
  @probe_preserves bench5 (@heaters bench5)
    (fun d => @GenericOnIdleCpu bench5 d tt)
  /\ (@tuple_size bench5 <> 0 \/ @accepts bench5 (@heaters bench5) rig 0 = true)
  /\ exists s',
       @any bench5 unit (@heaters bench5) (@GenericOnIdleCpu bench5)
         NO_SHORT_CIRCUIT tt rig = Returns (true, s')
       /\ @all bench5 unit (@heaters bench5) (@GenericOnIdleCpu bench5)
            DO_SHORT_CIRCUIT tt rig = Returns (false, rig)
       /\ map idle s' = [0; 0; 0; 3; 0]%nat.
Proof.
  split; [exact heaters_after_idle|].
  split; [left; exact rig_is_not_empty|].
  destruct (@any_all_call_selected_slots bench5 unit (@GenericOnIdleCpu bench5)
              tt (@heaters bench5) rig heaters_after_idle
              (or_introl rig_is_not_empty))
    as (_ & Hany & _ & _ & Hall & _).
  eexists. rewrite Hany, Hall. vm_compute. repeat split.
Defined.

Lemma any_all_of_nothing_witness :
  @matching bench5 (@servos bench5) rig = []
  /\ (@tuple_size bench5 <> 0 \/ @accepts bench5 (@servos bench5) rig 0 = true)
  /\ @any bench5 unit (@servos bench5) (@GenericOnIdleCpu bench5)
       NO_SHORT_CIRCUIT tt rig = Returns (false, rig)
  /\ @all bench5 unit (@servos bench5) (@GenericOnIdleCpu bench5)
       NO_SHORT_CIRCUIT tt rig = Returns (true, rig).
Proof.
  split; [reflexivity|].
  split; [left; exact rig_is_not_empty|].
  exact (@any_all_of_nothing bench5 unit (@GenericOnIdleCpu bench5) tt
           (@servos bench5) NO_SHORT_CIRCUIT rig eq_refl
           (or_introl rig_is_not_empty)).
Defined.

Lemma short_circuit_is_unobservable_witness :
  (forall (d : iteratorbase) (s' : list Device), snd (isStepper d tt s') = s')
  /\ @any bench5 unit (@iter bench5) isStepper DO_SHORT_CIRCUIT tt rig
     = @any bench5 unit (@iter bench5) isStepper NO_SHORT_CIRCUIT tt rig
  /\ @all bench5 unit (@iter bench5) isStepper DO_SHORT_CIRCUIT tt rig
     = @all bench5 unit (@iter bench5) isStepper NO_SHORT_CIRCUIT tt rig.
Proof.
  split; [intros d s'; reflexivity|].
  exact (@short_circuit_is_unobservable_for_pure_probes bench5 unit
           (@iter bench5) isStepper tt rig (fun d s' => eq_refl)).
Defined.

Lemma reduce_visits_accepted_slots_witness :
  (@tuple_size bench5 <> 0 \/ @accepts bench5 (@heaters bench5) rig 0 = true)
  /\ @reduce bench5 (list N) unit (@heaters bench5) (@collect bench5) [] tt rig
     = Returns ([0; 4], rig).
Proof.
  split; [left; exact rig_is_not_empty|].
  destruct (@reduce_visits_accepted_slots_in_order bench5 (@heaters bench5) rig
              (or_introl rig_is_not_empty)) as (visited & Hrun & _).
  rewrite Hrun. vm_compute in Hrun. inversion Hrun. reflexivity.
Defined.

Lemma empty_iff_nothing_selected_witness :
  (@tuple_size bench5 <> 0 \/ @accepts bench5 (@servos bench5) rig 0 = true)
  /\ exists b,
       @empty bench5 (@servos bench5) rig = Returns b
       /\ (b = true <-> @matching bench5 (@servos bench5) rig = []).
Proof.
  split; [left; exact rig_is_not_empty|].
  destruct (@empty_iff_nothing_selected bench5 (@servos bench5) rig
              (or_introl rig_is_not_empty)) as (b & Hrun & Hiff & _).
  exists b. split; assumption.
Defined.

Lemma index_is_kth_selected_slot_witness :
  (@tuple_size bench5 <> 0 \/ @accepts bench5 (@heaters bench5) rig 0 = true)
  /\ @iterinfo_index bench5 (@heaters bench5) 1 rig = Returns {| idx := 4 |}
  /\ @IODrivers_index bench5 6 rig = AssertionFailed.
Proof.
  split; [left; exact rig_is_not_empty|].
  split.
  - destruct (@index_is_kth_selected_slot bench5 (@heaters bench5) 1 rig
                (or_introl rig_is_not_empty)) as (Hidx & _).
    rewrite Hidx. reflexivity.
  - destruct (@index_is_kth_selected_slot bench5 (@heaters bench5) 6 rig
                (or_introl rig_is_not_empty)) as (_ & Hidx).
    rewrite Hidx. reflexivity.
Defined.

Lemma bench_fits_int : @tuple_size bench5 <= @INT_MAX int32.
Proof. intros Hgt. discriminate Hgt. Qed.

Lemma length_counts_selected_slots_witness :
  @tuple_size bench5 <= @INT_MAX int32
  /\ (@tuple_size bench5 <> 0 \/ @accepts bench5 (@heaters bench5) rig 0 = true)
  /\ @length bench5 int32 (@heaters bench5) rig = Returns (2, rig)
  /\ @empty bench5 (@heaters bench5) rig = Returns false.
Proof.
  split; [exact bench_fits_int|].
  split; [left; exact rig_is_not_empty|].
  destruct (@length_counts_selected_slots bench5 int32 (@heaters bench5) rig
              bench_fits_int (or_introl rig_is_not_empty))
    as (Hlen & _ & Hempty).
  rewrite Hlen, Hempty. split; reflexivity.
Defined.

Lemma lengths_of_union_and_intersection_witness :
  @tuple_size bench5 <= @INT_MAX int32
  /\ @tuple_size bench5 <> 0
  /\ exists a b u i,
       @length bench5 int32 (@hotends bench5) rig = Returns (a, rig)
       /\ @length bench5 int32 (@heatedBeds bench5) rig = Returns (b, rig)
       /\ @length bench5 int32
            (@unionWith bench5 (@hotends bench5) (@heatedBeds bench5)) rig
          = Returns (u, rig)
       /\ @length bench5 int32
            (@iterinfo_filter bench5 (@hotends bench5) (@heatedBeds bench5))
            rig
          = Returns (i, rig)
       /\ u + i = a + b.
Proof.
  split; [exact bench_fits_int|].
  split; [exact rig_is_not_empty|].
  destruct (@lengths_of_union_and_intersection bench5 int32
              (@hotends bench5) (@heatedBeds bench5) rig
              bench_fits_int rig_is_not_empty)
    as (a & b & u & i & Ha & Hb & Hu & Hi & Hsum & _).
  exists a, b, u, i. repeat split; assumption.
Defined.

Lemma fans_after_duty :
  forall (s' : list Device) (i j : N) (z : Z),
    @tupleCallOnIndex_IsFan bench5
      (@tupleCallOnIndex_SetFanDutyCycle bench5 commands5 s' i z) j
    = @tupleCallOnIndex_IsFan bench5 s' j.
Proof.
  intros s' i j z. simpl. unfold at_slot.
  now rewrite kind_nth_update.
Qed.

Lemma hotends_after_target :
  forall (s' : list Device) (i j : N) (z : Z),
    @tupleCallOnIndex_IsHotend bench5
      (@tupleCallOnIndex_SetTargetTemperature bench5 commands5 s' i z) j
    = @tupleCallOnIndex_IsHotend bench5 s' j.
Proof.
  intros s' i j z. simpl. unfold at_slot.
  now rewrite kind_nth_update.
Qed.

Lemma beds_after_target :
  forall (s' : list Device) (i j : N) (z : Z),
    @tupleCallOnIndex_IsHeatedBed bench5
      (@tupleCallOnIndex_SetTargetTemperature bench5 commands5 s' i z) j
    = @tupleCallOnIndex_IsHeatedBed bench5 s' j.
Proof.
  intros s' i j z. simpl. unfold at_slot.
  now rewrite kind_nth_update.
Qed.

Lemma apply_calls_selected_slots_witness :
  @action_preserves bench5 (@fans bench5)
    (fun d => @GenericSetFanDutyCycle bench5 commands5 d 500%Z)
  /\ (@tuple_size bench5 <> 0 \/ @accepts bench5 (@fans bench5) rig 0 = true)
  /\ exists s',
       @apply bench5 Z (@fans bench5)
         (@GenericSetFanDutyCycle bench5 commands5) 500%Z rig = Returns s'
       /\ map duty s' = [0; 0; 0; 500; 0]%Z.
Proof.
  assert (Hpres : @action_preserves bench5 (@fans bench5)
                    (fun d => @GenericSetFanDutyCycle bench5 commands5 d 500%Z)).
  { intros d s' self. apply fans_after_duty. }
  split; [exact Hpres|].
  split; [left; exact rig_is_not_empty|].
  destruct (@apply_calls_selected_slots bench5 Z (@fans bench5)
              (@GenericSetFanDutyCycle bench5 commands5) 500%Z rig Hpres
              (or_introl rig_is_not_empty)) as (Hrun & _).
  eexists. rewrite Hrun. vm_compute. split; reflexivity.
Defined.

Lemma setters_reach_their_kind_only_witness :
  @tuple_size bench5 <> 0
  /\ exists s1 s2 s3,
       @setFanDutyCycle bench5 commands5 500%Z rig = Returns s1
       /\ map duty s1 = [0; 0; 0; 500; 0]%Z
       /\ @setHotendTemp bench5 commands5 210%Z rig = Returns s2
       /\ map target s2 = [210; 0; 0; 0; 0]%Z
       /\ @setBedTemp bench5 commands5 60%Z rig = Returns s3
       /\ map target s3 = [0; 0; 0; 0; 60]%Z.
Proof.
  split; [exact rig_is_not_empty|].
  destruct (@setters_reach_their_kind_only bench5 commands5 500%Z 210%Z rig
              rig_is_not_empty fans_after_duty hotends_after_target
              beds_after_target) as (Hfan & Hhot & _).
  destruct (@setters_reach_their_kind_only bench5 commands5 500%Z 60%Z rig
              rig_is_not_empty fans_after_duty hotends_after_target
              beds_after_target) as (_ & _ & Hbed & _).
  do 3 eexists. rewrite Hfan, Hhot, Hbed. vm_compute. repeat split.
Defined.

Lemma lock_and_unlock_reach_every_slot_witness :
  exists s1 s2,
    @lockAllAxes bench5 commands5 rig = Returns s1
    /\ map locked s1 = [true; true; true; true; true]
    /\ map locked rig = [false; false; false; false; false]
    /\ @unlockAllAxes bench5 commands5 s1 = Returns s2
    /\ map locked s2 = [false; false; false; false; false]
    /\ s2 = rig.
Proof.
  destruct (@lock_and_unlock_reach_every_slot bench5 commands5 rig)
    as (Hlock & _).
  eexists. eexists. split; [exact Hlock|].
  split; [reflexivity|]. split; [reflexivity|].
  split.
  - exact (proj1 (proj2 (@lock_and_unlock_reach_every_slot bench5 commands5 _))).
  - split; reflexivity.
Defined.

Lemma rig_next_event :
  @peekNextEvent bench5 rig
  = Returns (({| idx := 1 |},
              Event.Event_ctor 5000%Z 0 Event.StepForward), rig).
Proof. vm_compute. reflexivity. Qed.

Lemma peekNextEvent_first_of_ties_wins_witness :
  @peekNextEvent bench5 rig
  = Returns (({| idx := 1 |},
              Event.Event_ctor 5000%Z 0 Event.StepForward), rig)
  /\ Event.isNull (Event.Event_ctor 5000%Z 0 Event.StepForward) = false
  /\ forall i, i < 1 ->
       Event.isNull (next (at_slot rig i)) = true
       \/ (5000 < Event.time (next (at_slot rig i)))%Z.
Proof.
  split; [exact rig_next_event|].
  split; [reflexivity|].
  exact (@peekNextEvent_first_of_ties_wins bench5 rig {| idx := 1 |}
           (Event.Event_ctor 5000%Z 0 Event.StepForward)
           rig_next_event eq_refl).
Defined.

End OnTheBench.

(** *** The cursor returned by [peekNextEvent], and cursor arithmetic *)

Section MoreScheduling.
Import IODrivers Visit.
Context `{I : Instantiation}.
Local Open Scope N_scope.

Local Abbreviation peek_body'' :=
  (fun reduced d => peekNextEvent_step reduced d tt).

Lemma fold_peek_cursor (s : Drivers) (l : list N) :
  forall acc : iteratorbase * OutputEvent,
    let r := fst (fold_cursors peek_body'' l acc s) in
    (fst r = fst acc \/ In (idx (fst r)) l)
    /\ (isNull (snd acc) = true -> l <> [] -> In (idx (fst r)) l).
Proof.
  induction l as [|i l IH]; intros acc; cbn zeta.
  - split; [now left | intros _ Hne; now contradiction Hne].
  - rewrite fold_peek_cons, peekNextEvent_step_cases. cbn zeta. simpl idx.
    destruct (isNull (snd acc)) eqn:Hacc.
    + destruct (IH ({| idx := i |}, tupleCallOnIndex_PeekNextEvent s i))
        as [[Hsame | Hin] _]; cbn zeta in *; simpl fst in *.
      * rewrite Hsame. simpl. split; [right; now left | intros _ _; now left].
      * split; [right; now right | intros _ _; now right].
    + assert (Hkeep : forall acc', fst acc' = fst acc
                \/ acc' = ({| idx := i |}, tupleCallOnIndex_PeekNextEvent s i) ->
                (fst (fst (fold_cursors peek_body'' l acc' s)) = fst acc
                 \/ In (idx (fst (fst (fold_cursors peek_body'' l acc' s))))
                      (i :: l))).
      { intros acc' Hacc'. destruct (IH acc') as [[Hsame | Hin] _];
          cbn zeta in *.
        - rewrite Hsame. destruct Hacc' as [Heq | ->];
            [now left | right; now left].
        - right. now right. }
      split; [|intros Habs; discriminate Habs].
      destruct (isNull (tupleCallOnIndex_PeekNextEvent s i));
        [apply Hkeep; now left|].
      destruct (time (tupleCallOnIndex_PeekNextEvent s i) <? time (snd acc))%Z;
        apply Hkeep; [now right | now left].
Qed.

(** X25.  On a container that holds at least one device, the cursor
    [peekNextEvent()] returns always points to a device, never to the end,
    whether or not an event is pending; only on an empty container is it the
    end cursor (with the default-constructed event).  A caller cannot tell
    that nothing is pending by comparing the cursor with [end()]. *)
Theorem peekNextEvent_cursor_is_a_device (s : Drivers) :
  exists (it : iteratorbase) (e : OutputEvent),
    peekNextEvent s = Returns ((it, e), s)
    /\ (tuple_size <> 0 -> idx it < tuple_size)
    /\ (tuple_size = 0 ->
        it = {| idx := tuple_size |} /\ e = OutputEvent_ctor)
    /\ (iteratorbase_eqb it {| idx := tuple_size |} = true
        <-> tuple_size = 0).
Proof.
  rewrite peekNextEvent_is_fold.
  pose proof (fold_peek_cursor s slots
                ({| idx := tuple_size |}, OutputEvent_ctor)) as Hcur.
  cbn zeta in Hcur. destruct Hcur as [_ Hin].
  specialize (Hin OutputEvent_ctor_isNull).
  assert (Hempty : tuple_size = 0 ->
            fst (fold_cursors peek_body'' slots
                   ({| idx := tuple_size |}, OutputEvent_ctor) s)
            = ({| idx := tuple_size |}, OutputEvent_ctor)).
  { intros Hz. unfold slots. rewrite Hz. reflexivity. }
  destruct (fst (fold_cursors peek_body'' slots
                   ({| idx := tuple_size |}, OutputEvent_ctor) s))
    as [it e]. simpl fst in Hin.
  assert (Hdev : tuple_size <> 0 -> idx it < tuple_size).
  { intros Hnz. apply In_slots. apply Hin.
    unfold slots. destruct (N.to_nat tuple_size) eqn:Hn; [lia|].
    discriminate. }
  exists it, e. split; [reflexivity|]. split; [exact Hdev|].
  split.
  - intros Hz. specialize (Hempty Hz). now inversion Hempty.
  - unfold iteratorbase_eqb. simpl idx. rewrite N.eqb_eq. split.
    + intros Hend. destruct (N.eq_dec tuple_size 0) as [|Hnz]; [assumption|].
      specialize (Hdev Hnz). lia.
    + intros Hz. specialize (Hempty Hz). inversion Hempty. reflexivity.
Qed.

Lemma plus_loop_app (P : Predicate) (s : Drivers) (a b : nat) :
  forall it,
    plus_loop (a + b) P s it
    = (it' <- plus_loop a P s it ;; plus_loop b P s it').
Proof.
  induction a as [|a IH]; intros it; simpl; [reflexivity|].
  destruct (operator_incr P s it) as [it'| |]; cbn [bind];
    [apply IH | reflexivity | reflexivity].
Qed.

(** X26.  Cursor arithmetic composes: adding 0 to a cursor returns it,
    adding 1 is one increment, and adding [a + b] is adding [a] and then
    [b], with the assertion failing in the one exactly when it fails in the
    other. *)
Theorem operator_plus_composes (P : Predicate) (s : Drivers)
    (it : iteratorbase) (a b : N) :
  operator_plus P s it 0 = Returns it
  /\ operator_plus P s it 1 = operator_incr P s it
  /\ operator_plus P s it (a + b)
     = (it' <- operator_plus P s it a ;; operator_plus P s it' b).
Proof.
  unfold operator_plus. repeat split.
  - simpl. destruct (operator_incr P s it); reflexivity.
  - rewrite N2Nat.inj_add. apply plus_loop_app.
Qed.

End MoreScheduling.
